(** * SE-MobileNet-v2: a shallow embedding of
      [fblib/networks/classification/se_mobilenet_v2.py]

    The file follows the Python module top-down:
    - [Py]: the fragment of Python the module relies on (exceptions as a
      result type, binary64 floats with [int * float], [int(x)], [float / int],
      [math.sqrt], [str.replace], [in] on strings, ordered dictionaries);
    - [Arch]: the layer descriptors and the constructors [conv_bn],
      [conv_1x1_bn], [SEMobile], [InvertedResidual], [SEMobileNetV2] together
      with [_initialize_weights];
    - [Forward]: the forward passes of [SEMobile] and [InvertedResidual] on
      tensors whose entries are idealised as real numbers, as values and,
      for [SEMobile], on a storage of flat buffers where [view] aliases and
      [nn.ReLU6(inplace=True)] overwrites;
    - [Loader]: the checkpoint handling of [se_mobilenet_v2]. *)

From Stdlib Require Import ZArith List Bool String Ascii Lia.
From Stdlib Require Import Floats.SpecFloat.
From Stdlib Require Import Reals Lra.
Import ListNotations.

Set Implicit Arguments.

(* ================================================================== *)
(** * The Python fragment *)
(* ================================================================== *)
Module Py.

(** The exceptions the module can raise, directly or through the library. *)
Inductive exn : Type :=
| AssertionError
| OverflowError
| ValueError
| ZeroDivisionError
| IndexError
| KeyError
| RuntimeError
| IOError.

(** A computation either returns or raises. *)
Inductive result (A : Type) : Type :=
| Ok (a : A)
| Err (e : exn).
Arguments Ok {A} a.
Arguments Err {A} e.

Definition bind {A B : Type} (c : result A) (k : A -> result B) : result B :=
  match c with
  | Ok a => k a
  | Err e => Err e
  end.

Definition py_assert (b : bool) : result unit :=
  if b then Ok tt else Err AssertionError.

Definition is_ok {A : Type} (c : result A) : bool :=
  match c with Ok _ => true | Err _ => false end.

Module Notations.
Declare Scope py_scope.
Delimit Scope py_scope with py.
Notation "x <- c ;; k" := (bind c (fun x => k))
  (at level 61, c at next level, right associativity) : py_scope.
Notation "c ;;; k" := (bind c (fun _ => k))
  (at level 61, right associativity) : py_scope.
End Notations.
Import Notations.
Local Open Scope py_scope.

(** [for x in xs: s = body(x, s)] with exceptions leaving the loop. *)
Fixpoint for_each {A S : Type} (body : A -> S -> result S) (xs : list A) (s : S)
  : result S :=
  match xs with
  | [] => Ok s
  | x :: rest => s' <- body x s ;; for_each body rest s'
  end.

(** [for i in range(n)]: the indices [i, i+1, ...], [count] of them. *)
Fixpoint for_range {S : Type} (body : Z -> S -> result S) (i : Z) (count : nat)
  (s : S) : result S :=
  match count with
  | O => Ok s
  | Datatypes.S k => s' <- body i s ;; for_range body (i + 1)%Z k s'
  end.

(** ** Floats: IEEE 754 binary64, as Python's [float] *)
Definition float : Type := spec_float.
Definition prec : Z := 53.
Definition emax : Z := 1024.

Definition fmul : float -> float -> float := SFmul prec emax.
Definition fdiv : float -> float -> float := SFdiv prec emax.
Definition fsqrt : float -> float := SFsqrt prec emax.
(** [x > y] is [y < x]; any comparison with a NaN is [False]. *)
Definition fgt (x y : float) : bool := SFltb y x.
Definition flt (x y : float) : bool := SFltb x y.

(** The literals of the module. *)
Definition f_1_0 : float := S754_finite false 4503599627370496 (-52).
Definition f_2_0 : float := S754_finite false 4503599627370496 (-51).
(** [0.01 = 0x1.47ae147ae147bp-7] *)
Definition f_0_01 : float := S754_finite false 5764607523034235 (-59).
(** [0.2 = 0x1.999999999999ap-3] *)
Definition f_0_2 : float := S754_finite false 7205759403792794 (-55).
Definition f_0 : float := S754_zero false.

(** The conversion of an [int] operand of a mixed operation: round to nearest
    even, [OverflowError] when the integer is beyond the finite floats. *)
Definition float_of_int (n : Z) : result float :=
  match binary_normalize prec emax n 0 false with
  | S754_infinity _ => Err OverflowError
  | f => Ok f
  end.

(** [n * x] for an [int] [n] and a [float] [x]. *)
Definition int_mul_float (n : Z) (x : float) : result float :=
  f <- float_of_int n ;; Ok (fmul f x).

(** [x / n] for a [float] [x] and an [int] [n]. *)
Definition float_div_int (x : float) (n : Z) : result float :=
  f <- float_of_int n ;;
  match f with
  | S754_zero _ => Err ZeroDivisionError
  | _ => Ok (fdiv x f)
  end.

(** [int(x)]: truncation toward zero; NaN and the infinities raise. *)
Definition int_of_float (x : float) : result Z :=
  match x with
  | S754_zero _ => Ok 0%Z
  | S754_infinity _ => Err OverflowError
  | S754_nan => Err ValueError
  | S754_finite s m e =>
      let mag := (if (0 <=? e)%Z then Z.shiftl (Zpos m) e
                  else Z.shiftr (Zpos m) (- e))%Z in
      Ok (if s then (- mag)%Z else mag)
  end.

(** [math.sqrt(x)]: a domain error below zero. *)
Definition math_sqrt (x : float) : result float :=
  if flt x f_0 then Err ValueError else Ok (fsqrt x).

(** ** Strings *)
Local Open Scope string_scope.

(** [s.startswith(p)] *)
Fixpoint startswith (p s : string) : bool :=
  match p with
  | EmptyString => true
  | String a p' =>
      match s with
      | EmptyString => false
      | String b s' => Ascii.eqb a b && startswith p' s'
      end
  end.

(** [p in s] *)
Fixpoint str_in (p s : string) : bool :=
  startswith p s ||
  match s with
  | EmptyString => false
  | String _ s' => str_in p s'
  end.

(** [s.replace(old, '')] for a non-empty [old]: the occurrences are found
    from left to right and do not overlap.  [skip] counts the characters of
    the occurrence under deletion that are still to be dropped. *)
Fixpoint remove_from (old : string) (skip : nat) (s : string) : string :=
  match s with
  | EmptyString => EmptyString
  | String c s' =>
      match skip with
      | Datatypes.S k => remove_from old k s'
      | O =>
          if startswith old s then remove_from old (String.length old - 1) s'
          else String c (remove_from old 0 s')
      end
  end.

Definition str_remove (old s : string) : string :=
  match old with
  | EmptyString => s
  | _ => remove_from old 0 s
  end.

(** ** Ordered dictionaries ([dict], [OrderedDict]): insertion order kept *)
Definition dict (V : Type) : Type := list (string * V).

Definition keys {V : Type} (d : dict V) : list string := map fst d.

Fixpoint dict_get {V : Type} (d : dict V) (k : string) : option V :=
  match d with
  | [] => None
  | (k', v) :: d' => if String.eqb k k' then Some v else dict_get d' k
  end.

(** [d[k] = v]: an existing key keeps its position. *)
Fixpoint dict_set {V : Type} (d : dict V) (k : string) (v : V) : dict V :=
  match d with
  | [] => [(k, v)]
  | (k', v') :: d' =>
      if String.eqb k k' then (k', v) :: d' else (k', v') :: dict_set d' k v
  end.

Definition key_in (k : string) (ks : list string) : bool :=
  existsb (String.eqb k) ks.

End Py.

(* ================================================================== *)
(** * The architecture: layers and constructors *)
(* ================================================================== *)
Module Arch.
Import Py Py.Notations.
Local Open Scope py_scope.
Local Open Scope Z_scope.

(** How a parameter tensor was last written.  A freshly allocated parameter
    holds the library's default initialisation; [normal_], [fill_] and
    [zero_] overwrite it. *)
Inductive init : Type :=
| TorchDefault
| Normal (mean : Z) (std : float)
| Fill (v : Z)
| Zero.

(** The library layers the module instantiates, with the attributes the
    module reads back.  [P] is what a parameter tensor holds. *)
Inductive layer (P : Type) : Type :=
| Conv2d (in_channels out_channels : Z) (kernel_size : Z * Z)
         (stride padding groups : Z) (weight : P) (bias : option P)
| BatchNorm2d (num_features : Z) (weight bias : P)
| ReLU6 (inplace : bool)
| Sigmoid
| Dropout (p : float)
| AdaptiveAvgPool2d (output_size : Z)
| Linear (in_features out_features : Z) (weight bias : P).
Arguments ReLU6 {P} inplace.
Arguments Sigmoid {P}.
Arguments Dropout {P} p.
Arguments AdaptiveAvgPool2d {P} output_size.

(** [nn.Sequential] *)
Definition Sequential (P : Type) : Type := list (layer P).

Record SEMobile (P : Type) : Type := mkSEMobile {
  avg_pool : layer P;
  fc : Sequential P
}.

Record InvertedResidual (P : Type) : Type := mkInvertedResidual {
  stride : Z;
  use_res_connect : bool;
  conv : Sequential P;
  se : SEMobile P
}.

(** An element of [self.features]: a [conv_bn] / [conv_1x1_bn] stack or a
    block. *)
Inductive feature (P : Type) : Type :=
| Stack (s : Sequential P)
| Block (b : InvertedResidual P).

Record SEMobileNetV2 (P : Type) : Type := mkSEMobileNetV2 {
  last_channel : Z;
  features : list (feature P);
  classifier : Sequential P
}.

(** ** Changing the parameter representation, layer by layer *)
Section Map.
Context {P Q : Type} (f : P -> Q).

Definition layer_map (l : layer P) : layer Q :=
  match l with
  | Conv2d ic oc k s p g w b => Conv2d ic oc k s p g (f w) (option_map f b)
  | BatchNorm2d n w b => BatchNorm2d n (f w) (f b)
  | ReLU6 inplace => ReLU6 inplace
  | Sigmoid => Sigmoid
  | Dropout p => Dropout p
  | AdaptiveAvgPool2d o => AdaptiveAvgPool2d o
  | Linear i o w b => Linear i o (f w) (f b)
  end.

Definition SEMobile_map (m : SEMobile P) : SEMobile Q :=
  {| avg_pool := layer_map (avg_pool m); fc := map layer_map (fc m) |}.

Definition InvertedResidual_map (b : InvertedResidual P) : InvertedResidual Q :=
  {| stride := stride b;
     use_res_connect := use_res_connect b;
     conv := map layer_map (conv b);
     se := SEMobile_map (se b) |}.

Definition feature_map (x : feature P) : feature Q :=
  match x with
  | Stack s => Stack (map layer_map s)
  | Block b => Block (InvertedResidual_map b)
  end.

Definition SEMobileNetV2_map (m : SEMobileNetV2 P) : SEMobileNetV2 Q :=
  {| last_channel := last_channel m;
     features := map feature_map (features m);
     classifier := map layer_map (classifier m) |}.
End Map.

(** The architecture alone: every parameter forgotten. *)
Definition forget {P : Type} (_ : P) : unit := tt.

(** ** [self.modules()], restricted to the library layers *)
Section Modules.
Context {P : Type}.

Definition SEMobile_modules (m : SEMobile P) : list (layer P) :=
  avg_pool m :: fc m.

Definition InvertedResidual_modules (b : InvertedResidual P) : list (layer P) :=
  conv b ++ SEMobile_modules (se b).

Definition feature_modules (x : feature P) : list (layer P) :=
  match x with
  | Stack s => s
  | Block b => InvertedResidual_modules b
  end.

Definition modules (m : SEMobileNetV2 P) : list (layer P) :=
  flat_map feature_modules (features m) ++ classifier m.

(** The channel counts a stack of layers consumes and produces: those of
    its first and of its last convolution. *)
Fixpoint first_conv_in (s : Sequential P) : option Z :=
  match s with
  | [] => None
  | Conv2d ic _ _ _ _ _ _ _ :: _ => Some ic
  | _ :: rest => first_conv_in rest
  end.

Fixpoint last_conv_out (s : Sequential P) : option Z :=
  match s with
  | [] => None
  | l :: rest =>
      match last_conv_out rest with
      | Some oc => Some oc
      | None => match l with
                | Conv2d _ oc _ _ _ _ _ _ => Some oc
                | _ => None
                end
      end
  end.

Definition feature_in (x : feature P) : option Z :=
  match x with
  | Stack s => first_conv_in s
  | Block b => first_conv_in (conv b)
  end.

Definition feature_out (x : feature P) : option Z :=
  match x with
  | Stack s => last_conv_out s
  | Block b => last_conv_out (conv b)
  end.
End Modules.

(** ** The library constructors, as the module calls them *)
Definition nn_Conv2d (in_channels out_channels kernel_size stride padding groups : Z)
  (bias : bool) : layer init :=
  Conv2d in_channels out_channels (kernel_size, kernel_size) stride padding groups
         TorchDefault (if bias then Some TorchDefault else None).

Definition nn_BatchNorm2d (num_features : Z) : layer init :=
  BatchNorm2d num_features TorchDefault TorchDefault.

Definition nn_Linear (in_features out_features : Z) : layer init :=
  Linear in_features out_features TorchDefault TorchDefault.

(** [a // b] *)
Definition floordiv (a b : Z) : result Z :=
  if b =? 0 then Err ZeroDivisionError else Ok (a / b).

(** ** The module's own constructors *)
Definition conv_bn (inp oup stride : Z) : Sequential init :=
  [ nn_Conv2d inp oup 3 stride 1 1 false;
    nn_BatchNorm2d oup;
    ReLU6 true ].

Definition conv_1x1_bn (inp oup : Z) : Sequential init :=
  [ nn_Conv2d inp oup 1 1 0 1 false;
    nn_BatchNorm2d oup;
    ReLU6 true ].

Definition SEMobile_init (channel reduction : Z) : result (SEMobile init) :=
  hidden <- floordiv channel reduction ;;
  Ok {| avg_pool := AdaptiveAvgPool2d 1;
        fc := [ nn_Linear channel hidden;
                ReLU6 true;
                nn_Linear hidden channel;
                Sigmoid ] |}.

(** [round(inp * expand_ratio)] on integers is the product itself. *)
Definition InvertedResidual_init (inp oup stride expand_ratio : Z)
  : result (InvertedResidual init) :=
  py_assert (existsb (Z.eqb stride) [1; 2]) ;;;
  let hidden_dim := inp * expand_ratio in
  let use_res_connect := (stride =? 1) && (inp =? oup) in
  let conv :=
    if expand_ratio =? 1 then
      [ (* dw *)
        nn_Conv2d hidden_dim hidden_dim 3 stride 1 hidden_dim false;
        nn_BatchNorm2d hidden_dim;
        ReLU6 true;
        (* pw-linear *)
        nn_Conv2d hidden_dim oup 1 1 0 1 false;
        nn_BatchNorm2d oup ]
    else
      [ (* pw *)
        nn_Conv2d inp hidden_dim 1 1 0 1 false;
        nn_BatchNorm2d hidden_dim;
        ReLU6 true;
        (* dw *)
        nn_Conv2d hidden_dim hidden_dim 3 stride 1 hidden_dim false;
        nn_BatchNorm2d hidden_dim;
        ReLU6 true;
        (* pw-linear *)
        nn_Conv2d hidden_dim oup 1 1 0 1 false;
        nn_BatchNorm2d oup ] in
  se <- SEMobile_init oup 4 ;;
  Ok {| stride := stride;
        use_res_connect := use_res_connect;
        conv := conv;
        se := se |}.

(** ** [_initialize_weights] *)

(** The body of the loop over [self.modules()]. *)
Definition init_module (m : layer init) : result (layer init) :=
  match m with
  | Conv2d ic oc (kh, kw) s p g _ b =>
      let n := kh * kw * oc in
      q <- float_div_int f_2_0 n ;;
      std <- math_sqrt q ;;
      Ok (Conv2d ic oc (kh, kw) s p g (Normal 0 std)
                 (match b with Some _ => Some Zero | None => None end))
  | BatchNorm2d nf _ _ => Ok (BatchNorm2d nf (Fill 1) Zero)
  | Linear i o _ _ => Ok (Linear i o (Normal 0 f_0_01) Zero)
  | other => Ok other
  end.

(** The loop visits every module once, in registration order; an exception
    leaves the loop (and the constructor). *)
Fixpoint init_seq (s : Sequential init) : result (Sequential init) :=
  match s with
  | [] => Ok []
  | m :: rest => m' <- init_module m ;; rest' <- init_seq rest ;; Ok (m' :: rest')
  end.

Definition init_SEMobile (m : SEMobile init) : result (SEMobile init) :=
  a <- init_module (avg_pool m) ;;
  f <- init_seq (fc m) ;;
  Ok {| avg_pool := a; fc := f |}.

Definition init_InvertedResidual (b : InvertedResidual init)
  : result (InvertedResidual init) :=
  c <- init_seq (conv b) ;;
  s <- init_SEMobile (se b) ;;
  Ok {| stride := stride b; use_res_connect := use_res_connect b;
        conv := c; se := s |}.

Definition init_feature (x : feature init) : result (feature init) :=
  match x with
  | Stack s => s' <- init_seq s ;; Ok (Stack s')
  | Block b => b' <- init_InvertedResidual b ;; Ok (Block b')
  end.

Fixpoint init_features (fs : list (feature init)) : result (list (feature init)) :=
  match fs with
  | [] => Ok []
  | x :: rest => x' <- init_feature x ;; rest' <- init_features rest ;; Ok (x' :: rest')
  end.

Definition _initialize_weights (m : SEMobileNetV2 init) : result (SEMobileNetV2 init) :=
  fs <- init_features (features m) ;;
  cl <- init_seq (classifier m) ;;
  Ok {| last_channel := last_channel m; features := fs; classifier := cl |}.

(** ** [SEMobileNetV2.__init__] *)

(** t, c, n, s *)
Definition interverted_residual_setting : list (Z * Z * Z * Z) :=
  [ (1, 16, 1, 1);
    (6, 24, 2, 2);
    (6, 32, 3, 2);
    (6, 64, 4, 2);
    (6, 96, 3, 1);
    (6, 160, 3, 2);
    (6, 320, 1, 1) ].

(** [int(c * width_mult)] *)
Definition scaled (c : Z) (width_mult : float) : result Z :=
  x <- int_mul_float c width_mult ;; int_of_float x.

(** The state of the two nested loops: [self.features] and [input_channel]. *)
Definition build_state : Type := (list (feature init) * Z)%type.

(** The body of [for i in range(n)]. *)
Definition append_block (t output_channel s : Z) (i : Z) (st : build_state)
  : result build_state :=
  let '(fs, input_channel) := st in
  b <- InvertedResidual_init input_channel output_channel
         (if i =? 0 then s else 1) t ;;
  Ok (fs ++ [Block b], output_channel).

(** The body of [for t, c, n, s in interverted_residual_setting]. *)
Definition append_stage (width_mult : float) (setting : Z * Z * Z * Z)
  (st : build_state) : result build_state :=
  let '(t, c, n, s) := setting in
  output_channel <- scaled c width_mult ;;
  for_range (append_block t output_channel s) 0 (Z.to_nat n) st.

Definition SEMobileNetV2_init (n_class input_size : Z) (width_mult : float)
  (last_channel : Z) : result (SEMobileNetV2 init) :=
  let input_channel := 32 in
  py_assert (input_size mod 32 =? 0) ;;;
  input_channel <- scaled input_channel width_mult ;;
  self_last_channel <-
    (if fgt width_mult f_1_0 then scaled last_channel width_mult
     else Ok last_channel) ;;
  (* build first layer *)
  let features := [Stack (conv_bn 3 input_channel 2)] in
  (* build inverted residual blocks *)
  st <- for_each (append_stage width_mult) interverted_residual_setting
          (features, input_channel) ;;
  let '(features, input_channel) := st in
  (* build last layers *)
  let features := features ++ [Stack (conv_1x1_bn input_channel self_last_channel)] in
  (* build classifier *)
  let classifier := [ Dropout f_0_2; nn_Linear self_last_channel n_class ] in
  _initialize_weights
    {| last_channel := self_last_channel;
       features := features;
       classifier := classifier |}.

(** The defaults of the signature:
    [n_class=1000, input_size=224, width_mult=1., last_channel=1280]. *)
Definition default_net : result (SEMobileNetV2 init) :=
  SEMobileNetV2_init 1000 224 f_1_0 1280.

(** ** Sample networks *)
Module Samples.
Definition built (r : result (SEMobileNetV2 init)) : SEMobileNetV2 init :=
  match r with
  | Ok n => n
  | Err _ => {| last_channel := 0; features := []; classifier := [] |}
  end.

(** [1.5] and [0.5] *)
Definition f_1_5 : float := S754_finite false 6755399441055744 (-52).
Definition f_0_5 : float := S754_finite false 4503599627370496 (-53).

Definition network : SEMobileNetV2 init := built default_net.
Definition wide : SEMobileNetV2 init :=
  built (SEMobileNetV2_init 1000 224 f_1_5 1280).
Definition narrow : SEMobileNetV2 init :=
  built (SEMobileNetV2_init 1000 224 f_0_5 1280).

(** A small network as the constructors leave it, before
    [_initialize_weights]. *)
Definition raw : SEMobileNetV2 init :=
  {| last_channel := 16;
     features :=
       [Stack (conv_bn 3 8 2)]
       ++ match InvertedResidual_init 8 8 1 6 with
          | Ok b => [Block b]
          | Err _ => []
          end
       ++ [Stack (conv_1x1_bn 8 16)];
     classifier := [Dropout f_0_2; nn_Linear 16 10] |}.
End Samples.

(** ** Predicates of the specification *)

(** The initialisation policy, module by module. *)
Definition initialized (m : layer init) : Prop :=
  match m with
  | Conv2d _ oc (kh, kw) _ _ _ w b =>
      (exists q std,
          float_div_int f_2_0 (kh * kw * oc) = Ok q
          /\ math_sqrt q = Ok std
          /\ w = Normal 0 std)
      /\ (b = None \/ b = Some Zero)
  | BatchNorm2d _ w b => w = Fill 1 /\ b = Zero
  | Linear _ _ w b => w = Normal 0 f_0_01 /\ b = Zero
  | _ => True
  end.

(** What the loop body leaves untouched. *)
Definition layer_kept (m m' : layer init) : Prop :=
  layer_map forget m' = layer_map forget m.

Definition feature_kept (x x' : feature init) : Prop :=
  feature_in x' = feature_in x
  /\ feature_out x' = feature_out x
  /\ match x, x' with
     | Stack _, Stack _ => True
     | Block b, Block b' =>
         stride b' = stride b /\ use_res_connect b' = use_res_connect b
     | _, _ => False
     end.

(** A list of features through which the channel counts fit: it takes [ic]
    channels, every element hands its output channels to the next one, and
    the last one produces [oc] channels. *)
Fixpoint links {P : Type} (ic : Z) (fs : list (feature P)) (oc : Z) : Prop :=
  match fs with
  | [] => ic = oc
  | x :: rest =>
      feature_in x = Some ic
      /\ exists mid, feature_out x = Some mid /\ links mid rest oc
  end.

(** The blocks of one stage of the schedule: [n] of them, the first with the
    stage's stride, the others with stride 1. *)
Definition stage_ok {P : Type} (setting : Z * Z * Z * Z)
  (blocks : list (InvertedResidual P)) : Prop :=
  let '(_, _, n, s) := setting in
  List.length blocks = Z.to_nat n
  /\ forall (i : nat) (b : InvertedResidual P),
       nth_error blocks i = Some b ->
       stride b = if (i =? 0)%nat then s else 1.

(** ** Further predicates on the architecture *)

(** The product of the strides of the convolutions among the modules: the
    factor by which they shrink each spatial side. *)
Fixpoint stride_product {P : Type} (ms : list (layer P)) : Z :=
  match ms with
  | [] => 1
  | Conv2d _ _ _ s _ _ _ _ :: rest => s * stride_product rest
  | _ :: rest => stride_product rest
  end.

(** A stack in which every convolution has no bias and is followed at once
    by a batch normalisation over its output channels, and no batch
    normalisation stands anywhere else. *)
Fixpoint conv_then_bn {P : Type} (s : Sequential P) : Prop :=
  match s with
  | [] => True
  | Conv2d _ oc _ _ _ _ _ b :: BatchNorm2d nf _ _ :: rest =>
      b = None /\ nf = oc /\ conv_then_bn rest
  | Conv2d _ _ _ _ _ _ _ _ :: _ => False
  | BatchNorm2d _ _ _ :: _ => False
  | _ :: rest => conv_then_bn rest
  end.

(** A block with the architecture [InvertedResidual(inp, oup, stride, t)]
    builds. *)
Definition block_built (inp oup stride t : Z) (b : InvertedResidual init) : Prop :=
  exists b0,
    InvertedResidual_init inp oup stride t = Ok b0
    /\ InvertedResidual_map forget b = InvertedResidual_map forget b0.

(** The blocks of one stage as the loops build them: [n] blocks of
    [int(c * width_mult)] output channels and expansion ratio [t], the first
    with the stage's stride, the later ones with stride 1 and as many input
    as output channels. *)
Definition stage_built (width_mult : float) (setting : Z * Z * Z * Z)
  (blocks : list (InvertedResidual init)) : Prop :=
  let '(t, c, n, s) := setting in
  exists oc,
    scaled c width_mult = Ok oc
    /\ List.length blocks = Z.to_nat n
    /\ forall (i : nat) (b : InvertedResidual init),
         nth_error blocks i = Some b ->
         exists ic,
           block_built ic oc (if (i =? 0)%nat then s else 1) t b
           /\ (i <> O -> ic = oc).

(** The factor by which the blocks of a stage shrink each spatial side, and
    the factor of the whole schedule. *)
Definition stage_stride (setting : Z * Z * Z * Z) : Z :=
  let '(_, _, n, s) := setting in
  if (Z.to_nat n =? 0)%nat then 1 else s.

Definition schedule_stride : Z :=
  fold_right (fun setting acc => stage_stride setting * acc) 1
             interverted_residual_setting.

(** An element of the feature list as one of the three constructors builds
    it. *)
Definition feature_built (x : feature init) : Prop :=
  match x with
  | Stack s =>
      exists inp oup,
        map (layer_map forget) s = map (layer_map forget) (conv_bn inp oup 2)
        \/ map (layer_map forget) s = map (layer_map forget) (conv_1x1_bn inp oup)
  | Block b => exists ic oc st t, block_built ic oc st t b
  end.

End Arch.

(* ================================================================== *)
(** * Forward passes *)
(* ================================================================== *)
Module Forward.
Import Py Py.Notations Arch.
Local Open Scope py_scope.

(** Tensor entries are idealised as real numbers: rounding, infinities and
    NaN of the 32-bit floats of the library are outside this model. *)
Record Tensor4 : Type := mkTensor4 {
  dimB : nat; dimC : nat; dimH : nat; dimW : nat;
  at4 : nat -> nat -> nat -> nat -> R
}.

Record Tensor2 : Type := mkTensor2 {
  rows : nat; cols : nat;
  at2 : nat -> nat -> R
}.

(** A parameter tensor, read at a list of indices. *)
Definition param : Type := list nat -> R.

Fixpoint sum_upto (n : nat) (f : nat -> R) : R :=
  match n with
  | O => 0%R
  | S k => (sum_upto k f + f k)%R
  end.

Definition relu6 (r : R) : R := Rmin (Rmax 0 r) 6.
Definition sigmoid (r : R) : R := (1 / (1 + exp (- r)))%R.

(** Row-major storage: the entry at a flat offset. *)
Definition flat4 (t : Tensor4) (k : nat) : R :=
  at4 t (k / (dimC t * dimH t * dimW t))
        ((k / (dimH t * dimW t)) mod dimC t)
        ((k / dimW t) mod dimH t)
        (k mod dimW t).

Definition flat2 (t : Tensor2) (k : nat) : R :=
  at2 t (k / cols t) (k mod cols t).

(** [t.view(b, c)] and [t.view(b, c, h, w)]: the element count must agree. *)
Definition view2 (t : Tensor4) (b c : nat) : result Tensor2 :=
  if (dimB t * dimC t * dimH t * dimW t =? b * c)%nat then
    Ok {| rows := b; cols := c; at2 := fun i j => flat4 t (i * c + j) |}
  else Err RuntimeError.

Definition view4 (t : Tensor2) (b c h w : nat) : result Tensor4 :=
  if (rows t * cols t =? b * c * h * w)%nat then
    Ok {| dimB := b; dimC := c; dimH := h; dimW := w;
          at4 := fun i j p q => flat2 t (((i * c + j) * h + p) * w + q) |}
  else Err RuntimeError.

(** Broadcasting of two sizes along one dimension, and the index read from
    an operand of size [d]. *)
Definition bdim (a b : nat) : result nat :=
  if (a =? b)%nat then Ok a
  else if (a =? 1)%nat then Ok b
  else if (b =? 1)%nat then Ok a
  else Err RuntimeError.

Definition bidx (d i : nat) : nat := if (d =? 1)%nat then O else i.

Definition broadcast (op : R -> R -> R) (x y : Tensor4) : result Tensor4 :=
  b <- bdim (dimB x) (dimB y) ;;
  c <- bdim (dimC x) (dimC y) ;;
  h <- bdim (dimH x) (dimH y) ;;
  w <- bdim (dimW x) (dimW y) ;;
  Ok {| dimB := b; dimC := c; dimH := h; dimW := w;
        at4 := fun i j p q =>
          op (at4 x (bidx (dimB x) i) (bidx (dimC x) j)
                    (bidx (dimH x) p) (bidx (dimW x) q))
             (at4 y (bidx (dimB y) i) (bidx (dimC y) j)
                    (bidx (dimH y) p) (bidx (dimW y) q)) |}.

(** [x * y] and [x + y] *)
Definition tensor_mul : Tensor4 -> Tensor4 -> result Tensor4 := broadcast Rmult.

(** [nn.AdaptiveAvgPool2d(1)]: the mean over the spatial positions. *)
Definition global_avg (x : Tensor4) : Tensor4 :=
  {| dimB := dimB x; dimC := dimC x; dimH := 1; dimW := 1;
     at4 := fun b c _ _ =>
       (sum_upto (dimH x) (fun i => sum_upto (dimW x) (fun j => at4 x b c i j))
        / INR (dimH x * dimW x))%R |}.

(** [nn.Linear]: [y W^T + b] on a batch of rows. *)
Definition linear (in_features out_features : Z) (weight bias : param)
  (y : Tensor2) : result Tensor2 :=
  if (Z.of_nat (cols y) =? in_features)%Z then
    Ok {| rows := rows y; cols := Z.to_nat out_features;
          at2 := fun r o =>
            (sum_upto (cols y) (fun i => at2 y r i * weight [o; i]%nat)
             + bias [o])%R |}
  else Err RuntimeError.

Definition map2 (f : R -> R) (y : Tensor2) : Tensor2 :=
  {| rows := rows y; cols := cols y; at2 := fun i j => f (at2 y i j) |}.

Definition map4 (f : R -> R) (x : Tensor4) : Tensor4 :=
  {| dimB := dimB x; dimC := dimC x; dimH := dimH x; dimW := dimW x;
     at4 := fun i j p q => f (at4 x i j p q) |}.




(** ** Storage

    A tensor of the library is a view of a flat buffer: [view] returns a
    tensor on the buffer of its argument, an in-place operation writes the
    buffer of its argument, every other operation returns a tensor on a
    buffer of its own. *)
Definition buffer : Type := nat -> R.
Definition heap : Type := list buffer.

Record Ref4 : Type := mkRef4 {
  buf4 : nat;
  refB : nat; refC : nat; refH : nat; refW : nat
}.

Record Ref2 : Type := mkRef2 {
  buf2 : nat;
  ref_rows : nat; ref_cols : nat
}.

(** The tensor a reference stands for. *)
Definition deref4 (hp : heap) (r : Ref4) : result Tensor4 :=
  match nth_error hp (buf4 r) with
  | Some f =>
      Ok {| dimB := refB r; dimC := refC r; dimH := refH r; dimW := refW r;
            at4 := fun b c i j =>
              f (((b * refC r + c) * refH r + i) * refW r + j)%nat |}
  | None => Err RuntimeError
  end.

Definition deref2 (hp : heap) (r : Ref2) : result Tensor2 :=
  match nth_error hp (buf2 r) with
  | Some f =>
      Ok {| rows := ref_rows r; cols := ref_cols r;
            at2 := fun i j => f (i * ref_cols r + j)%nat |}
  | None => Err RuntimeError
  end.

(** A result on a buffer of its own. *)
Definition new4 (t : Tensor4) (hp : heap) : Ref4 * heap :=
  ({| buf4 := List.length hp;
      refB := dimB t; refC := dimC t; refH := dimH t; refW := dimW t |},
   hp ++ [flat4 t]).

Definition new2 (t : Tensor2) (hp : heap) : Ref2 * heap :=
  ({| buf2 := List.length hp; ref_rows := rows t; ref_cols := cols t |},
   hp ++ [flat2 t]).

(** Writing a buffer in place. *)
Fixpoint overwrite (n : nat) (f : buffer) (hp : heap) : heap :=
  match hp, n with
  | [], _ => []
  | _ :: rest, O => f :: rest
  | g :: rest, S k => g :: overwrite k f rest
  end.

(** [t.view(b, c)] and [t.view(b, c, h, w)] on references: the same buffer. *)
Definition view2_ref (r : Ref4) (b c : nat) : result Ref2 :=
  if (refB r * refC r * refH r * refW r =? b * c)%nat then
    Ok {| buf2 := buf4 r; ref_rows := b; ref_cols := c |}
  else Err RuntimeError.

Definition view4_ref (r : Ref2) (b c h w : nat) : result Ref4 :=
  if (ref_rows r * ref_cols r =? b * c * h * w)%nat then
    Ok {| buf4 := buf2 r; refB := b; refC := c; refH := h; refW := w |}
  else Err RuntimeError.

Section Calls.
(** The library layers whose arithmetic is not spelled out here
    (convolution, batch normalisation, dropout, pooling to other sizes) are
    taken as they come. *)
Variable torch_call4 : layer param -> Tensor4 -> result Tensor4.
Variable torch_call2 : layer param -> Tensor2 -> result Tensor2.

(** [m(x)] on a feature map. *)
Definition call4 (m : layer param) (x : Tensor4) : result Tensor4 :=
  match m with
  | AdaptiveAvgPool2d 1 => Ok (global_avg x)
  | ReLU6 _ => Ok (map4 relu6 x)
  | Sigmoid => Ok (map4 sigmoid x)
  | _ => torch_call4 m x
  end.

(** [m(y)] on a batch of vectors. *)
Definition call2 (m : layer param) (y : Tensor2) : result Tensor2 :=
  match m with
  | Linear i o w b => linear i o w b y
  | ReLU6 _ => Ok (map2 relu6 y)
  | Sigmoid => Ok (map2 sigmoid y)
  | _ => torch_call2 m y
  end.


Fixpoint seq2 (s : Sequential param) (y : Tensor2) : result Tensor2 :=
  match s with
  | [] => Ok y
  | m :: rest => y' <- call2 m y ;; seq2 rest y'
  end.

(** [SEMobile.forward] *)
Definition SEMobile_forward (self : SEMobile param) (x : Tensor4)
  : result Tensor4 :=
  let b := dimB x in
  let c := dimC x in
  y <- call4 (avg_pool self) x ;;
  y <- view2 y b c ;;
  y <- seq2 (fc self) y ;;
  y <- view4 y b c 1 1 ;;
  tensor_mul x y.


(** *** The same calls on the storage

    [nn.ReLU6(inplace=True)] overwrites the buffer of its argument and
    returns its argument; every other layer returns its result on a new
    buffer. *)
Definition call4_st (m : layer param) (x : Ref4) (hp : heap)
  : result (Ref4 * heap) :=
  t <- deref4 hp x ;;
  match m with
  | ReLU6 true => Ok (x, overwrite (buf4 x) (flat4 (map4 relu6 t)) hp)
  | _ => out <- call4 m t ;; Ok (new4 out hp)
  end.

Definition call2_st (m : layer param) (y : Ref2) (hp : heap)
  : result (Ref2 * heap) :=
  t <- deref2 hp y ;;
  match m with
  | ReLU6 true => Ok (y, overwrite (buf2 y) (flat2 (map2 relu6 t)) hp)
  | _ => out <- call2 m t ;; Ok (new2 out hp)
  end.

Fixpoint seq2_st (s : Sequential param) (y : Ref2) (hp : heap)
  : result (Ref2 * heap) :=
  match s with
  | [] => Ok (y, hp)
  | m :: rest => r <- call2_st m y hp ;; seq2_st rest (fst r) (snd r)
  end.

(** [x * y] on a buffer of its own. *)
Definition mul_st (x y : Ref4) (hp : heap) : result (Ref4 * heap) :=
  tx <- deref4 hp x ;;
  ty <- deref4 hp y ;;
  out <- tensor_mul tx ty ;;
  Ok (new4 out hp).

(** [SEMobile.forward] on the storage. *)
Definition SEMobile_forward_st (self : SEMobile param) (x : Ref4) (hp : heap)
  : result (Ref4 * heap) :=
  let b := refB x in
  let c := refC x in
  r <- call4_st (avg_pool self) x hp ;;
  y <- view2_ref (fst r) b c ;;
  r <- seq2_st (fc self) y (snd r) ;;
  y <- view4_ref (fst r) b c 1 1 ;;
  mul_st x y (snd r).





End Calls.

(** ** The gate, written out as the specification words it *)

(** The mean of channel [c] of image [b] over the spatial positions. *)
Definition channel_mean (x : Tensor4) (b c : nat) : R :=
  (sum_upto (dimH x) (fun i => sum_upto (dimW x) (fun j => at4 x b c i j))
   / INR (dimH x * dimW x))%R.

(** The factor for channel [c] of image [b]: the sigmoid of a bottleneck of
    [hidden] units with weights [w1], [b1] (into the bottleneck, then
    [relu6]) and [w2], [b2] (back to the channels) on the channel means. *)
Definition se_scale (hidden : nat) (w1 b1 w2 b2 : param) (x : Tensor4)
  (b c : nat) : R :=
  sigmoid
    (sum_upto hidden
       (fun k =>
          relu6 (sum_upto (dimC x) (fun i => channel_mean x b i * w1 [k; i]%nat)
                 + b1 [k])
          * w2 [c; k]%nat)
     + b2 [c])%R.

(** ** Sample tensors and stand-ins *)
Module Samples.
(** Every parameter at 0, and a stand-in for the layers left abstract. *)
Definition zeros (_ : init) : param := fun _ => 0%R.
Definition pass4 (_ : layer param) (x : Tensor4) : result Tensor4 := Ok x.
Definition pass2 (_ : layer param) (y : Tensor2) : result Tensor2 := Ok y.

(** One image, 16 channels, 2 x 2 positions, every entry 1. *)
Definition ones : Tensor4 :=
  {| dimB := 1; dimC := 16; dimH := 2; dimW := 2;
     at4 := fun _ _ _ _ => 1%R |}.

(** A storage holding [ones] alone, and the reference to it. *)
Definition ones_heap : heap := [fun _ => 1%R].
Definition ones_ref : Ref4 :=
  {| buf4 := 0; refB := 1; refC := 16; refH := 2; refW := 2 |}.

Definition gate_init : SEMobile init :=
  {| avg_pool := AdaptiveAvgPool2d 1;
     fc := [ nn_Linear 16 4; ReLU6 true; nn_Linear 4 16; Sigmoid ] |}.
Definition gate : SEMobile param := SEMobile_map zeros gate_init.





End Samples.

End Forward.

(* ================================================================== *)
(** * The pretrained-weight loader *)
(* ================================================================== *)
Module Loader.
Import Py Py.Notations Arch.
Local Open Scope py_scope.
Local Open Scope string_scope.

Definition model_url : string :=
  "https://data.vision.ee.ethz.ch/kmaninis/share/MTL//models/se_mobilenet_v2_1280-ce5a6e1d9.pth".

(** [os.path.join(a, b)] for a relative [b]. *)
Definition ends_with_slash (a : string) : bool :=
  match get (String.length a - 1) a with
  | Some c => Ascii.eqb c "/"
  | None => false
  end.

Definition os_path_join (a b : string) : string :=
  match a with
  | EmptyString => b
  | _ => if ends_with_slash a then a ++ b else a ++ "/" ++ b
  end.

(** [a == b] on two [torch.Size]. *)
Fixpoint shape_eqb (a b : list nat) : bool :=
  match a, b with
  | [], [] => true
  | x :: a', y :: b' => (x =? y)%nat && shape_eqb a' b'
  | _, _ => false
  end.

Section WithLibrary.
(** The tensors a checkpoint stores, and [v.shape]. *)
Variable V : Type.
Variable shape : V -> list nat.

(** [model.state_dict()] of a freshly constructed network. *)
Variable state_dict : SEMobileNetV2 init -> dict V.

(** [load_state_dict_from_url(url, ...)], [torch.load(path, ...)] and
    [Path.models_dir()]. *)
Variable load_state_dict_from_url : string -> result (dict (dict V)).
Variable torch_load : string -> result (dict (dict V)).
Variable models_dir : string.

(** [checkpoint[key]] *)
Definition getitem {A : Type} (d : dict A) (key : string) : result A :=
  match dict_get d key with
  | Some v => Ok v
  | None => Err KeyError
  end.

(** The loop that rebuilds the mapping with [k.replace('module.', '')]. *)
Definition strip_keys (checkpoint : dict V) : dict V :=
  fold_left (fun d kv => dict_set d (str_remove "module." (fst kv)) (snd kv))
            checkpoint [].

(** "Handle DataParallel": [list(checkpoint.keys())[0]] raises on an empty
    mapping. *)
Definition new_state_dict (checkpoint : dict V) : result (dict V) :=
  match keys checkpoint with
  | [] => Err IndexError
  | k0 :: _ =>
      if str_in "module." k0 then Ok (strip_keys checkpoint)
      else Ok checkpoint
  end.

(** The library's [Module.load_state_dict(state_dict)] with its default
    [strict=True]: every entry of the module found in [sd] with the shape of
    the entry is copied in place; then the entries found with another shape,
    the missing and the unexpected keys are reported by one [RuntimeError].
    The first component is the module's state after the call, also when it
    raises: nothing the call has copied is taken back. *)
Definition load_state_dict (model sd : dict V) : dict V * result unit :=
  let fits (kv : string * V) (v : V) :=
    shape_eqb (shape v) (shape (snd kv)) in
  let copied :=
    map (fun kv => match dict_get sd (fst kv) with
                   | Some v => if fits kv v then (fst kv, v) else kv
                   | None => kv
                   end) model in
  let mismatched :=
    filter (fun kv => match dict_get sd (fst kv) with
                      | Some v => negb (fits kv v)
                      | None => false
                      end) model in
  let missing := filter (fun k => negb (key_in k (keys sd))) (keys model) in
  let unexpected := filter (fun k => negb (key_in k (keys model))) (keys sd) in
  (copied,
   match mismatched, missing, unexpected with
   | [], [], [] => Ok tt
   | _, _, _ => Err RuntimeError
   end).



(** What [se_mobilenet_v2] returns: the network, whether it is the
    feature-returning variant, and its parameter values. *)
Record Model : Type := mkModel {
  net : SEMobileNetV2 init;
  returns_features : bool;
  params : dict V
}.

(** The two steps after the checkpoint is read: key handling and
    assignment.  An exception leaves [se_mobilenet_v2], whose [model] is a
    local: nothing of it is returned. *)
Definition load_checkpoint (model : Model) (checkpoint : dict V)
  : result Model :=
  sd <- new_state_dict checkpoint ;;
  let (loaded, outcome) := load_state_dict (params model) sd in
  outcome ;;;
  Ok {| net := net model;
        returns_features := returns_features model;
        params := loaded |}.

Definition se_mobilenet_v2 (pretrained features : bool)
  (n_class last_channel : Z) (remote : bool) : result Model :=
  network <- SEMobileNetV2_init n_class 224 f_1_0 last_channel ;;
  let model := {| net := network;
                  returns_features := features;
                  params := state_dict network |} in
  if pretrained then
    (* Load checkpoint *)
    checkpoint <-
      (if remote then load_state_dict_from_url model_url
       else torch_load (os_path_join models_dir "se_mobilenet_v2_1280.pth")) ;;
    checkpoint <- getitem checkpoint "model_state" ;;
    (* Handle DataParallel, load pre-trained IN model *)
    load_checkpoint model checkpoint
  else Ok model.
End WithLibrary.

(** What wrapping the network for distributed training does to the
    checkpoint it saves: every key gets the prefix. *)
Definition add_prefix {V : Type} (checkpoint : dict V) : dict V :=
  map (fun kv => ("module." ++ fst kv, snd kv)) checkpoint.

(** A checkpoint with every key rewritten, entry by entry: what the loop of
    the key handling is compared with. *)
Definition renamed {V : Type} (checkpoint : dict V) : dict V :=
  map (fun kv => (str_remove "module." (fst kv), snd kv)) checkpoint.

(** ** Sample checkpoints and library stand-ins *)
Module Samples.
(** A checkpoint saved from a wrapped network. *)
Definition wrapped : dict nat :=
  [ ("module.features.0.0.weight", 1%nat);
    ("module.classifier.1.bias", 2%nat) ].

Definition unwrapped : dict nat :=
  [ ("features.0.0.weight", 1%nat);
    ("classifier.1.bias", 2%nat) ].

(** Only the second key carries the prefix. *)
Definition mixed : dict nat :=
  [ ("features.0.0.weight", 1%nat);
    ("module.classifier.1.bias", 2%nat) ].

(** The prefix inside a key. *)
Definition inner : dict nat :=
  [ ("module.features.module.0.weight", 1%nat) ].

(** One key too many. *)
Definition extra : dict nat :=
  [ ("module.features.0.0.weight", 1%nat);
    ("module.classifier.1.bias", 2%nat);
    ("module.classifier.1.scale", 3%nat) ].

(** Every sample value below is a scalar. *)
Definition scalar (_ : nat) : list nat := [].

(** A stand-in for the library: two named parameters, and the files the
    two sources hold. *)
Definition two_params (_ : SEMobileNetV2 init) : dict nat :=
  [ ("features.0.0.weight", 0%nat); ("classifier.1.bias", 0%nat) ].

Definition from_url (_ : string) : result (dict (dict nat)) :=
  Ok [ ("model_state", extra) ].

Definition from_disk (_ : string) : result (dict (dict nat)) :=
  Ok [ ("epoch", []); ("model_state", wrapped) ].

Definition network : SEMobileNetV2 init := Arch.Samples.network.

Definition fresh_model : Model nat :=
  {| net := network; returns_features := false;
     params := two_params network |}.

(** Two keys that differ by the prefix only. *)
Definition colliding : dict nat :=
  [ ("module.classifier.1.bias", 1%nat);
    ("features.0.0.weight", 2%nat);
    ("classifier.1.bias", 3%nat) ].








End Samples.

End Loader.

(* ================================================================== *)
(** * Facts about the Python fragment *)
(* ================================================================== *)
Module PyFacts.
Import Py Py.Notations.
Local Open Scope py_scope.
Local Open Scope string_scope.

Lemma bind_ok {A B : Type} (c : result A) (k : A -> result B) (b : B) :
  bind c k = Ok b -> exists a, c = Ok a /\ k a = Ok b.
Proof. destruct c as [a|e]; simpl; intros H; [eauto | discriminate]. Qed.

Lemma bind_err {A B : Type} (c : result A) (k : A -> result B) (e : exn) :
  bind c k = Err e -> c = Err e \/ exists a, c = Ok a /\ k a = Err e.
Proof. destruct c as [a|e']; simpl; intros H; [right; eauto | left; congruence]. Qed.

(** Inversion of a chain of binds that returned. *)
Ltac inv_ok :=
  repeat match goal with
  | H : bind _ _ = Ok _ |- _ =>
      let a := fresh "a" in
      let Ha := fresh "Hc" in
      let Hk := fresh "Hk" in
      apply bind_ok in H; destruct H as (a & Ha & Hk)
  | H : Ok _ = Ok _ |- _ => injection H as H
  | H : Err _ = Ok _ |- _ => discriminate H
  | H : py_assert ?b = Ok _ |- _ =>
      unfold py_assert in H;
      let E := fresh "Hassert" in destruct b eqn:E; [clear H | discriminate H]
  end.

(** ** Strings *)

Lemma startswith_app (p s : string) : startswith p (p ++ s) = true.
Proof.
  induction p as [|a p IH]; simpl; [reflexivity|].
  now rewrite Ascii.eqb_refl, IH.
Qed.

Lemma str_in_app (p s : string) : str_in p (p ++ s) = true.
Proof.
  pose proof (startswith_app p s) as H.
  destruct (p ++ s); simpl; now rewrite H.
Qed.

Lemma str_in_false_cons (p : string) (c : ascii) (s : string) :
  str_in p (String c s) = false ->
  startswith p (String c s) = false /\ str_in p s = false.
Proof. simpl str_in. intros H. now apply orb_false_iff in H. Qed.

(** Dropping the rest of an occurrence. *)
Lemma remove_from_skip (old a s : string) :
  remove_from old (String.length a) (a ++ s) = remove_from old 0 s.
Proof.
  induction a as [|c a IH]; simpl.
  - destruct s; reflexivity.
  - exact IH.
Qed.

(** A leading occurrence is deleted. *)
Lemma remove_from_occurrence (c : ascii) (old s : string) :
  remove_from (String c old) 0 (String c old ++ s)
  = remove_from (String c old) 0 s.
Proof.
  change (String c old ++ s) with (String c (old ++ s)).
  cbn [remove_from].
  change (String c (old ++ s)) with (String c old ++ s).
  rewrite startswith_app.
  replace (String.length (String c old) - 1) with (String.length old)
    by (cbn [String.length]; lia).
  apply remove_from_skip.
Qed.

(** Without an occurrence nothing changes. *)
Lemma remove_from_absent (old s : string) :
  str_in old s = false -> remove_from old 0 s = s.
Proof.
  induction s as [|c s IH]; intros H; [reflexivity|].
  apply str_in_false_cons in H. destruct H as [H1 H2].
  cbn [remove_from]. rewrite H1. now rewrite IH.
Qed.

(** ['module.'] has no border: an occurrence cannot straddle the end of a
    string that does not start with it and the occurrence that follows. *)
Lemma module_no_straddle (c : ascii) (a b : string) :
  startswith "module." (String c a) = false ->
  startswith "module." (String c a ++ "module." ++ b) = false.
Proof.
  intros H.
  do 6 (destruct a as [|? a];
        [ cbn [startswith append];
          repeat match goal with
                 | |- context [Ascii.eqb ?x ?y] =>
                     is_var y; destruct (Ascii.eqb x y)
                 end; reflexivity
        | ]).
  cbn [startswith append] in H |- *. exact H.
Qed.

Lemma remove_module_middle (a b : string) :
  str_in "module." a = false ->
  str_remove "module." (a ++ "module." ++ b) = a ++ str_remove "module." b.
Proof.
  unfold str_remove.
  induction a as [|c a IH]; intros H.
  - apply (remove_from_occurrence "m" "odule." b).
  - apply str_in_false_cons in H. destruct H as [H1 H2].
    change (String c a ++ "module." ++ b) with (String c (a ++ "module." ++ b)).
    cbn [remove_from].
    change (String c (a ++ "module." ++ b)) with (String c a ++ "module." ++ b).
    rewrite (module_no_straddle c a b H1).
    rewrite (IH H2). reflexivity.
Qed.

(** ** Ordered dictionaries *)
Section Dict.
Context {V : Type}.


Lemma dict_set_fresh (d : dict V) (k : string) (v : V) :
  ~ In k (keys d) -> dict_set d k v = (d ++ [(k, v)])%list.
Proof.
  induction d as [|[k' v'] d IH]; intros Hn; [reflexivity|].
  simpl in *. destruct (String.eqb k k') eqn:E.
  - apply String.eqb_eq in E. subst. tauto.
  - rewrite IH; tauto.
Qed.

Lemma dict_get_In (d : dict V) (k : string) (v : V) :
  dict_get d k = Some v -> In (k, v) d.
Proof.
  induction d as [|[k' v'] d IH]; simpl; [discriminate|].
  destruct (String.eqb k k') eqn:E.
  - intros [= ->]. apply String.eqb_eq in E. subst. now left.
  - intros H. right. now apply IH.
Qed.

End Dict.

End PyFacts.

(* ================================================================== *)
(** * The architecture: what the constructors build *)
(* ================================================================== *)
Module ArchFacts.
Import Py Py.Notations Arch PyFacts.
Local Open Scope py_scope.
Local Open Scope Z_scope.

(** ** Blocks *)

Lemma SEMobile_init_4 (channel : Z) :
  SEMobile_init channel 4
  = Ok {| avg_pool := AdaptiveAvgPool2d 1;
          fc := [ nn_Linear channel (channel / 4); ReLU6 true;
                  nn_Linear (channel / 4) channel; Sigmoid ] |}.
Proof. reflexivity. Qed.

Lemma stride_in_1_2 (stride : Z) :
  existsb (Z.eqb stride) [1; 2] = true <-> stride = 1 \/ stride = 2.
Proof.
  cbn [existsb]. rewrite !orb_true_iff, !Z.eqb_eq. intuition discriminate.
Qed.

(** What a block that was constructed looks like from outside. *)
Lemma InvertedResidual_init_ok (inp oup stride t : Z) (b : InvertedResidual init) :
  InvertedResidual_init inp oup stride t = Ok b ->
  (stride = 1 \/ stride = 2)
  /\ Arch.stride b = stride
  /\ use_res_connect b = (stride =? 1) && (inp =? oup)
  /\ first_conv_in (conv b) = Some inp
  /\ last_conv_out (conv b) = Some oup
  /\ SEMobile_init oup 4 = Ok (se b).
Proof.
  unfold InvertedResidual_init. intros H.
  destruct (existsb (Z.eqb stride) [1; 2]) eqn:Hs; [|discriminate H].
  apply stride_in_1_2 in Hs. cbn [py_assert bind] in H.
  rewrite SEMobile_init_4 in H |- *. cbn [bind] in H.
  injection H as <-. cbn [Arch.stride use_res_connect conv se].
  repeat split; try assumption.
  - destruct (t =? 1) eqn:Ht; [|reflexivity].
    apply Z.eqb_eq in Ht. subst t. cbn. now rewrite Z.mul_1_r.
  - destruct (t =? 1); reflexivity.
Qed.

Lemma InvertedResidual_init_total (inp oup stride t : Z) :
  stride = 1 \/ stride = 2 ->
  exists b, InvertedResidual_init inp oup stride t = Ok b.
Proof.
  intros Hs. apply stride_in_1_2 in Hs.
  unfold InvertedResidual_init. rewrite Hs, SEMobile_init_4.
  cbn [py_assert bind]. eauto.
Qed.

Lemma InvertedResidual_init_err (inp oup stride t : Z) (e : exn) :
  InvertedResidual_init inp oup stride t = Err e ->
  e = AssertionError /\ ~ (stride = 1 \/ stride = 2).
Proof.
  unfold InvertedResidual_init. rewrite SEMobile_init_4.
  destruct (existsb (Z.eqb stride) [1; 2]) eqn:Hs; cbn [py_assert bind].
  - discriminate.
  - intros [= <-]. split; [reflexivity|].
    intros H. apply stride_in_1_2 in H. congruence.
Qed.

(** C7.  [InvertedResidual(inp, oup, stride, expand_ratio)] raises
    [AssertionError] for every stride other than 1 and 2, and for the strides
    1 and 2 the assertion passes and the block is built with that stride. *)
Theorem InvertedResidual_stride_check (inp oup stride expand_ratio : Z) :
  (~ (stride = 1 \/ stride = 2) ->
   InvertedResidual_init inp oup stride expand_ratio = Err AssertionError)
  /\ (stride = 1 \/ stride = 2 ->
      exists b, InvertedResidual_init inp oup stride expand_ratio = Ok b
                /\ Arch.stride b = stride).
Proof.
  split.
  - intros Hn.
    destruct (InvertedResidual_init inp oup stride expand_ratio) as [b|e] eqn:E.
    + apply InvertedResidual_init_ok in E. tauto.
    + apply InvertedResidual_init_err in E. now destruct E as [-> _].
  - intros Hs.
    destruct (InvertedResidual_init_total inp oup expand_ratio Hs) as [b Hb].
    exists b. split; [exact Hb|].
    now apply InvertedResidual_init_ok in Hb.
Qed.

Lemma InvertedResidual_stride_check_witness :
  InvertedResidual_init 16 24 3 6 = Err AssertionError
  /\ InvertedResidual_init 16 24 0 6 = Err AssertionError
  /\ exists b, InvertedResidual_init 16 24 2 6 = Ok b /\ Arch.stride b = 2.
Proof.
  split; [|split].
  - apply (proj1 (InvertedResidual_stride_check 16 24 3 6)). lia.
  - apply (proj1 (InvertedResidual_stride_check 16 24 0 6)). lia.
  - apply (proj2 (InvertedResidual_stride_check 16 24 2 6)). now right.
Defined.

(** ** [_initialize_weights] *)

Lemma init_module_ok (m m' : layer init) :
  init_module m = Ok m' -> initialized m' /\ layer_kept m m'.
Proof.
  unfold layer_kept.
  destruct m as [ic oc [kh kw] s p g w b|nf w b|ip| |p|o|i o w b];
    cbn [init_module]; intros H; inv_ok; subst m';
    cbn [initialized layer_map option_map forget]; try (split; auto; fail).
  - split.
    + split; [eauto 6|]. destruct b; auto.
    + destruct b; reflexivity.
Qed.

Lemma float_of_int_err (n : Z) (e : exn) :
  float_of_int n = Err e -> e = OverflowError.
Proof.
  unfold float_of_int.
  destruct (binary_normalize prec emax n 0 false); congruence.
Qed.

Lemma int_of_float_err (x : float) (e : exn) :
  int_of_float x = Err e -> e <> AssertionError.
Proof. destruct x; cbn; intros [= <-]; discriminate. Qed.

Lemma scaled_err (c : Z) (w : float) (e : exn) :
  scaled c w = Err e -> e <> AssertionError.
Proof.
  unfold scaled, int_mul_float. intros H.
  destruct (float_of_int c) as [f|e'] eqn:E; cbn [bind] in H.
  - now apply int_of_float_err in H.
  - injection H as <-. apply float_of_int_err in E. subst. discriminate.
Qed.

Lemma init_module_err (m : layer init) (e : exn) :
  init_module m = Err e -> e <> AssertionError.
Proof.
  destruct m as [ic oc [kh kw] s p g w b|nf w b|ip| |p|o|i o w b];
    cbn [init_module]; try discriminate.
  unfold float_div_int, math_sqrt.
  destruct (float_of_int (kh * kw * oc)) as [f|e'] eqn:E; cbn [bind].
  - destruct f; cbn [bind];
      repeat match goal with
             | |- context [if ?c then _ else _] => destruct c
             end; cbn [bind]; intros [= <-]; discriminate.
  - intros [= <-]. apply float_of_int_err in E. subst. discriminate.
Qed.

(** Either outcome of a bind, by cases. *)
Ltac step_bind H :=
  match type of H with
  | bind ?c _ = _ =>
      let E := fresh "E" in
      destruct c eqn:E; cbn [bind] in H
  end.

Lemma init_seq_ok (s s' : Sequential init) :
  init_seq s = Ok s' -> Forall initialized s' /\ Forall2 layer_kept s s'.
Proof.
  revert s'. induction s as [|m s IH]; cbn [init_seq]; intros s' H.
  - injection H as <-. split; constructor.
  - inv_ok. subst s'. apply init_module_ok in Hc. apply IH in Hc0.
    split; constructor; tauto.
Qed.

Lemma init_seq_err (s : Sequential init) (e : exn) :
  init_seq s = Err e -> e <> AssertionError.
Proof.
  induction s as [|m s IH]; cbn [init_seq]; [discriminate|]. intros H.
  step_bind H; [|injection H as <-; now apply init_module_err in E].
  step_bind H; [discriminate|]. injection H as <-. now apply IH.
Qed.

Lemma layer_kept_first_conv_in (s s' : Sequential init) :
  Forall2 layer_kept s s' -> first_conv_in s' = first_conv_in s.
Proof.
  induction 1 as [|m m' s s' Hm _ IH]; [reflexivity|].
  unfold layer_kept in Hm.
  destruct m, m'; cbn in Hm; try discriminate; cbn; congruence.
Qed.

Lemma layer_kept_last_conv_out (s s' : Sequential init) :
  Forall2 layer_kept s s' -> last_conv_out s' = last_conv_out s.
Proof.
  induction 1 as [|m m' s s' Hm _ IH]; [reflexivity|].
  unfold layer_kept in Hm. cbn [last_conv_out]. rewrite IH.
  destruct m, m'; cbn in Hm; try discriminate; try reflexivity.
  now injection Hm as -> -> -> -> -> ->.
Qed.

Lemma init_SEMobile_ok (m m' : SEMobile init) :
  init_SEMobile m = Ok m' -> Forall initialized (SEMobile_modules m').
Proof.
  unfold init_SEMobile. intros H. inv_ok. subst m'.
  unfold SEMobile_modules. cbn [avg_pool fc].
  apply init_module_ok in Hc. apply init_seq_ok in Hc0.
  constructor; tauto.
Qed.

Lemma init_SEMobile_err (m : SEMobile init) (e : exn) :
  init_SEMobile m = Err e -> e <> AssertionError.
Proof.
  unfold init_SEMobile. intros H.
  step_bind H; [|injection H as <-; now apply init_module_err in E].
  step_bind H; [discriminate|]. injection H as <-. now apply init_seq_err in E0.
Qed.

Lemma init_feature_ok (x x' : feature init) :
  init_feature x = Ok x' ->
  Forall initialized (feature_modules x') /\ feature_kept x x'.
Proof.
  unfold feature_kept.
  destruct x as [s|b]; cbn [init_feature]; intros H; inv_ok; subst x'.
  - apply init_seq_ok in Hc. destruct Hc as [Hi Hk].
    cbn [feature_modules feature_in feature_out].
    rewrite (layer_kept_first_conv_in Hk), (layer_kept_last_conv_out Hk). auto.
  - unfold init_InvertedResidual in Hc. inv_ok. subst a.
    apply init_seq_ok in Hc0. destruct Hc0 as [Hi Hk].
    apply init_SEMobile_ok in Hc.
    cbn [feature_modules feature_in feature_out InvertedResidual_modules
         conv se stride use_res_connect].
    rewrite (layer_kept_first_conv_in Hk), (layer_kept_last_conv_out Hk).
    repeat split. apply Forall_app. now split.
Qed.

Lemma init_feature_err (x : feature init) (e : exn) :
  init_feature x = Err e -> e <> AssertionError.
Proof.
  destruct x as [s|b]; cbn [init_feature]; intros H.
  - step_bind H; [discriminate|]. injection H as <-. now apply init_seq_err in E.
  - step_bind H; [discriminate|]. injection H as <-.
    unfold init_InvertedResidual in E.
    step_bind E; [|injection E as <-; now apply init_seq_err in E0].
    step_bind E; [discriminate|]. injection E as <-.
    now apply init_SEMobile_err in E1.
Qed.

Lemma init_features_ok (fs fs' : list (feature init)) :
  init_features fs = Ok fs' ->
  Forall initialized (flat_map feature_modules fs') /\ Forall2 feature_kept fs fs'.
Proof.
  revert fs'. induction fs as [|x fs IH]; cbn [init_features]; intros fs' H.
  - injection H as <-. split; constructor.
  - inv_ok. subst fs'. apply init_feature_ok in Hc. apply IH in Hc0.
    cbn [flat_map]. split; [apply Forall_app; tauto | constructor; tauto].
Qed.

Lemma init_features_err (fs : list (feature init)) (e : exn) :
  init_features fs = Err e -> e <> AssertionError.
Proof.
  induction fs as [|x fs IH]; cbn [init_features]; [discriminate|]. intros H.
  step_bind H; [|injection H as <-; now apply init_feature_err in E].
  step_bind H; [discriminate|]. injection H as <-. now apply IH.
Qed.

Lemma _initialize_weights_ok (m m' : SEMobileNetV2 init) :
  _initialize_weights m = Ok m' ->
  Forall initialized (modules m')
  /\ last_channel m' = last_channel m
  /\ Forall2 feature_kept (features m) (features m')
  /\ Forall2 layer_kept (classifier m) (classifier m').
Proof.
  unfold _initialize_weights. intros H. inv_ok. subst m'.
  apply init_features_ok in Hc. apply init_seq_ok in Hc0.
  unfold modules. cbn [last_channel features classifier].
  repeat split; try tauto. apply Forall_app. tauto.
Qed.

Lemma _initialize_weights_err (m : SEMobileNetV2 init) (e : exn) :
  _initialize_weights m = Err e -> e <> AssertionError.
Proof.
  unfold _initialize_weights. intros H.
  step_bind H; [|injection H as <-; now apply init_features_err in E].
  step_bind H; [discriminate|]. injection H as <-. now apply init_seq_err in E0.
Qed.

(** ** The feature list *)

Lemma links_app {P : Type} (xs ys : list (feature P)) (a b c : Z) :
  links a xs b -> links b ys c -> links a (xs ++ ys) c.
Proof.
  revert a. induction xs as [|x xs IH]; cbn [links app]; intros a.
  - now intros ->.
  - intros (Hin & mid & Hout & Hrest) Hys. eauto.
Qed.

Lemma links_kept (fs fs' : list (feature init)) (a b : Z) :
  Forall2 feature_kept fs fs' -> links a fs b -> links a fs' b.
Proof.
  intros HF. revert a. induction HF as [|x x' fs fs' Hx _ IH]; cbn [links].
  - auto.
  - intros a (Hin & mid & Hout & Hrest).
    destruct Hx as (Ei & Eo & _). rewrite Ei, Eo. eauto.
Qed.

(** Consecutive elements of a fitting list agree on the channel count. *)
Lemma links_consecutive {P : Type} (fs : list (feature P)) (a b : Z) :
  links a fs b ->
  forall (i : nat) (x y : feature P),
    nth_error fs i = Some x -> nth_error fs (S i) = Some y ->
    exists c, feature_out x = Some c /\ feature_in y = Some c.
Proof.
  revert a. induction fs as [|x0 fs IH]; intros a H i x y Hx Hy.
  - destruct i; discriminate.
  - destruct H as (Hin & mid & Hout & Hrest). destruct i as [|i].
    + cbn in Hx, Hy. injection Hx as <-.
      destruct fs as [|y0 fs]; [discriminate|]. cbn in Hy. injection Hy as <-.
      destruct Hrest as (Hin' & _). eauto.
    + cbn [nth_error] in Hx. change (nth_error fs (S i) = Some y) in Hy. eauto.
Qed.

(** The inner loop: [count] blocks are appended, the one built at index 0
    with stride [s], the others with stride 1, and the channels fit. *)
Lemma append_blocks_ok (t oc s : Z) (count : nat) :
  forall (i : Z) (fs fs' : list (feature init)) (ic ic' : Z),
    for_range (append_block t oc s) i count (fs, ic) = Ok (fs', ic') ->
    exists blocks,
      fs' = fs ++ map (@Block init) blocks
      /\ List.length blocks = count
      /\ (forall (k : nat) (b : InvertedResidual init),
            nth_error blocks k = Some b ->
            stride b = if i + Z.of_nat k =? 0 then s else 1)
      /\ links ic (map (@Block init) blocks) ic'.
Proof.
  induction count as [|count IH]; cbn [for_range]; intros i fs fs' ic ic' H.
  - injection H as <- <-. exists []. rewrite app_nil_r.
    split; [reflexivity|]. split; [reflexivity|]. split; [|reflexivity].
    intros [|k] b; discriminate.
  - step_bind H; [|discriminate].
    unfold append_block in E. step_bind E; [|discriminate].
    injection E as <-. apply InvertedResidual_init_ok in E0.
    destruct E0 as (_ & Hst & _ & Hin & Hout & _).
    apply IH in H. destruct H as (blocks & -> & Hlen & Hstr & Hl).
    exists (a0 :: blocks). cbn [map List.length links feature_in feature_out].
    split; [now rewrite <- app_assoc|].
    split; [now rewrite Hlen|].
    split; [|now eauto].
    intros [|k] b Hb; cbn [nth_error] in Hb.
    + injection Hb as <-. now rewrite Z.add_0_r.
    + rewrite (Hstr k b Hb).
      now replace (i + 1 + Z.of_nat k) with (i + Z.of_nat (S k)) by lia.
Qed.

(** The outer loop, stage by stage. *)
Lemma append_stages_ok (w : float) (settings : list (Z * Z * Z * Z)) :
  forall (fs fs' : list (feature init)) (ic ic' : Z),
    for_each (append_stage w) settings (fs, ic) = Ok (fs', ic') ->
    exists stages,
      fs' = fs ++ map (@Block init) (List.concat stages)
      /\ Forall2 stage_ok settings stages
      /\ links ic (map (@Block init) (List.concat stages)) ic'.
Proof.
  induction settings as [|[[[t c] n] s] settings IH]; cbn [for_each];
    intros fs fs' ic ic' H.
  - injection H as <- <-. exists []. cbn. rewrite app_nil_r. auto.
  - step_bind H; [|discriminate]. destruct a as [fs1 ic1].
    unfold append_stage in E. step_bind E; [|discriminate].
    apply append_blocks_ok in E. destruct E as (blocks & -> & Hlen & Hstr & Hl).
    apply IH in H. destruct H as (stages & -> & HF & Hl').
    exists (blocks :: stages). cbn [List.concat]. rewrite map_app, app_assoc.
    repeat split.
    + constructor; [|exact HF]. split; [exact Hlen|].
      intros i b Hb. rewrite (Hstr i b Hb). cbn [Z.add].
      destruct i; reflexivity.
    + eapply links_app; eassumption.
Qed.

(** With strides from the schedule the loops raise no assertion. *)
Lemma append_stages_err (w : float) (settings : list (Z * Z * Z * Z)) :
  Forall (fun setting => snd setting = 1 \/ snd setting = 2) settings ->
  forall (st : build_state) (e : exn),
    for_each (append_stage w) settings st = Err e -> e <> AssertionError.
Proof.
  induction 1 as [|[[[t c] n] s] settings Hs _ IH]; cbn [for_each];
    intros st e H; [discriminate|].
  step_bind H; [now apply IH in H|]. injection H as <-. clear IH.
  unfold append_stage in E. step_bind E; [|injection E as <-; now apply scaled_err in E0].
  exfalso. clear E0. cbn [snd] in Hs.
  generalize dependent st. generalize 0 as i.
  induction (Z.to_nat n) as [|k IHk]; cbn [for_range]; intros i st E;
    [discriminate|].
  step_bind E; [now apply IHk in E|].
  destruct st as [fs ic]. unfold append_block in E0.
  step_bind E0; [discriminate|].
  apply InvertedResidual_init_err in E1. destruct E1 as [_ Hn].
  apply Hn. destruct (i =? 0); auto.
Qed.

Lemma schedule_strides :
  Forall (fun setting : Z * Z * Z * Z => snd setting = 1 \/ snd setting = 2)
         interverted_residual_setting.
Proof.
  unfold interverted_residual_setting.
  repeat (apply Forall_cons; [cbn; auto|]). apply Forall_nil.
Qed.

(** What a constructed network went through. *)
Lemma SEMobileNetV2_init_ok (n_class input_size : Z) (w : float) (lc : Z)
  (model : SEMobileNetV2 init) :
  SEMobileNetV2_init n_class input_size w lc = Ok model ->
  exists ic0 slc fs ic1,
    input_size mod 32 = 0
    /\ scaled 32 w = Ok ic0
    /\ (if fgt w f_1_0 then scaled lc w else Ok lc) = Ok slc
    /\ for_each (append_stage w) interverted_residual_setting
                ([Stack (conv_bn 3 ic0 2)], ic0) = Ok (fs, ic1)
    /\ _initialize_weights
         {| last_channel := slc;
            features := fs ++ [Stack (conv_1x1_bn ic1 slc)];
            classifier := [Dropout f_0_2; nn_Linear slc n_class] |}
       = Ok model.
Proof.
  unfold SEMobileNetV2_init. intros H.
  destruct (input_size mod 32 =? 0) eqn:Hsz; [|discriminate H].
  apply Z.eqb_eq in Hsz. cbn [py_assert bind] in H.
  step_bind H; [|discriminate]. step_bind H; [|discriminate].
  step_bind H; [|discriminate]. destruct a1 as [fs ic1].
  exists a, a0, fs, ic1. auto.
Qed.

(** C8.  [SEMobileNetV2(...)] raises [AssertionError] exactly when
    [input_size] is not a multiple of 32: the assertion is the first
    statement that can raise, and nothing after it raises an assertion. *)
Theorem input_size_check (n_class input_size : Z) (width_mult : float)
  (last_channel : Z) :
  SEMobileNetV2_init n_class input_size width_mult last_channel
  = Err AssertionError
  <-> input_size mod 32 <> 0.
Proof.
  unfold SEMobileNetV2_init.
  destruct (input_size mod 32 =? 0) eqn:Hsz; cbn [py_assert bind].
  - apply Z.eqb_eq in Hsz. split; [|intros Hn; now elim Hn].
    intros H. exfalso.
    step_bind H; [|injection H as H; now apply scaled_err in E].
    step_bind H.
    2:{ injection H as H. destruct (fgt width_mult f_1_0);
        [now apply scaled_err in E0 | discriminate]. }
    step_bind H.
    2:{ injection H as H.
        now apply (append_stages_err width_mult schedule_strides) in E1. }
    destruct a1 as [fs ic1]. now apply _initialize_weights_err in H.
  - apply Z.eqb_neq in Hsz. tauto.
Qed.

(** ** Lists related element by element *)

Lemma kept_body (bs : list (InvertedResidual init)) (h : Sequential init)
  (fs' : list (feature init)) :
  Forall2 feature_kept (map (@Block init) bs ++ [Stack h]) fs' ->
  exists bs' h',
    fs' = map (@Block init) bs' ++ [Stack h']
    /\ Forall2 (fun b b' => stride b' = stride b) bs bs'.
Proof.
  revert fs'. induction bs as [|b bs IH]; cbn [map app]; intros fs' H.
  - inversion H as [|x x' l l' Hx Hl]; subst. inversion Hl; subst.
    destruct Hx as (_ & _ & Hk). destruct x' as [h'|b']; [|contradiction].
    exists [], h'. split; [reflexivity | constructor].
  - inversion H as [|x x' l l' Hx Hl]; subst.
    destruct Hx as (_ & _ & Hk). destruct x' as [h'|b']; [contradiction|].
    apply IH in Hl. destruct Hl as (bs' & h' & -> & HF).
    exists (b' :: bs'), h'. split; [reflexivity|].
    constructor; tauto.
Qed.

Lemma Forall2_concat {A B : Type} (R : A -> B -> Prop) (xss : list (list A)) :
  forall ys : list B,
    Forall2 R (List.concat xss) ys ->
    exists yss, ys = List.concat yss /\ Forall2 (Forall2 R) xss yss.
Proof.
  induction xss as [|xs xss IH]; cbn [List.concat]; intros ys H.
  - inversion H; subst. exists []. split; [reflexivity | constructor].
  - apply Forall2_app_inv_l in H. destruct H as (ys1 & ys2 & H1 & H2 & ->).
    apply IH in H2. destruct H2 as (yss & -> & HF).
    exists (ys1 :: yss). split; [reflexivity | now constructor].
Qed.

Lemma Forall2_nth_error_r {A B : Type} (R : A -> B -> Prop)
  (xs : list A) (ys : list B) :
  Forall2 R xs ys ->
  forall (i : nat) (y : B),
    nth_error ys i = Some y -> exists x, nth_error xs i = Some x /\ R x y.
Proof.
  induction 1 as [|x y0 xs ys Hx _ IH]; intros i y Hy.
  - destruct i; discriminate.
  - destruct i as [|i]; cbn in Hy |- *.
    + injection Hy as <-. eauto.
    + eauto.
Qed.

Lemma stage_ok_kept (setting : Z * Z * Z * Z)
  (bs bs' : list (InvertedResidual init)) :
  stage_ok setting bs ->
  Forall2 (fun b b' => stride b' = stride b) bs bs' ->
  stage_ok setting bs'.
Proof.
  destruct setting as [[[t c] n] s]. cbn [stage_ok].
  intros [Hlen Hstr] HF. split.
  - now rewrite <- (Forall2_length HF).
  - intros i b' Hb'.
    destruct (Forall2_nth_error_r HF i Hb') as (b & Hb & ->). eauto.
Qed.


(** The feature list of a constructed network: stem, stages, head. *)
Lemma features_of_network (n_class input_size : Z) (w : float) (lc : Z)
  (model : SEMobileNetV2 init) :
  SEMobileNetV2_init n_class input_size w lc = Ok model ->
  exists stem stages head,
    features model
    = Stack stem :: map (@Block init) (List.concat stages) ++ [Stack head]
    /\ Forall2 stage_ok interverted_residual_setting stages
    /\ links 3 (features model) (last_channel model).
Proof.
  intros H. apply SEMobileNetV2_init_ok in H.
  destruct H as (ic0 & slc & fs & ic1 & _ & _ & _ & Hloop & Hinit).
  apply append_stages_ok in Hloop.
  destruct Hloop as (stages0 & -> & Hst & Hl).
  apply _initialize_weights_ok in Hinit.
  destruct Hinit as (_ & Hlc & Hk & _).
  cbn [last_channel features] in Hlc, Hk. rewrite Hlc.
  assert (Hpre : links 3 (([Stack (conv_bn 3 ic0 2)]
                           ++ map (@Block init) (List.concat stages0))
                          ++ [Stack (conv_1x1_bn ic1 slc)]) slc).
  { apply links_app with (b := ic1); [apply links_app with (b := ic0)|].
    - cbn. eauto.
    - exact Hl.
    - cbn. eauto. }
  pose proof (@links_kept _ _ _ _ Hk Hpre) as Hpost.
  rewrite <- app_assoc in Hk. cbn [app] in Hk.
  inversion Hk as [|x x' l l' Hx Hrest Ex Ex']; subst.
  destruct Hx as (_ & _ & Hkind). destruct x' as [stem|?]; [|contradiction].
  apply kept_body in Hrest. destruct Hrest as (bs' & head & -> & HF).
  apply Forall2_concat in HF. destruct HF as (stages & -> & HFF).
  exists stem, stages, head. rewrite <- Ex' in Hpost.
  split; [reflexivity|]. split; [|exact Hpost].
  clear - Hst HFF. revert stages HFF.
  induction Hst as [|st bs sts bss Hs _ IH]; intros stages HFF;
    inversion HFF; subst; constructor.
  - eapply stage_ok_kept; eassumption.
  - now apply IH.
Qed.

(** ** The network as specified *)

(** C6.  The body of a constructed network is the concatenation of seven
    stages, one per entry [(t, c, n, s)] of the schedule: stage by stage [n]
    blocks, the first with stride [s] and every later one with stride 1.
    Through the whole feature list the channel counts fit: the stem takes 3
    channels, the output channels of every element are the input channels
    of the next (stem into first block, block into block, last block into
    the 1x1 head), and the head produces [last_channel] channels. *)
Theorem body_strides_and_channels (n_class input_size : Z) (width_mult : float)
  (lc : Z) (model : SEMobileNetV2 init) :
  SEMobileNetV2_init n_class input_size width_mult lc = Ok model ->
  exists stem stages head,
    features model
    = Stack stem :: map (@Block init) (List.concat stages) ++ [Stack head]
    /\ List.length stages = 7%nat
    /\ Forall2 stage_ok interverted_residual_setting stages
    /\ links 3 (features model) (last_channel model)
    /\ forall (i : nat) (x y : feature init),
         nth_error (features model) i = Some x ->
         nth_error (features model) (S i) = Some y ->
         exists c, feature_out x = Some c /\ feature_in y = Some c.
Proof.
  intros H. apply features_of_network in H.
  destruct H as (stem & stages & head & Hf & Hst & Hl).
  exists stem, stages, head.
  split; [exact Hf|]. split; [now rewrite <- (Forall2_length Hst)|].
  split; [exact Hst|]. split; [exact Hl|].
  now apply links_consecutive with (a := 3) (b := last_channel model).
Qed.




Lemma body_strides_and_channels_witness :
  exists stem stages head,
    features Samples.network
    = Stack stem :: map (@Block init) (List.concat stages) ++ [Stack head]
    /\ List.length stages = 7%nat
    /\ Forall2 stage_ok interverted_residual_setting stages
    /\ links 3 (features Samples.network) (last_channel Samples.network)
    /\ forall (i : nat) (x y : feature init),
         nth_error (features Samples.network) i = Some x ->
         nth_error (features Samples.network) (S i) = Some y ->
         exists c, feature_out x = Some c /\ feature_in y = Some c.
Proof.
  apply (@body_strides_and_channels 1000 224 f_1_0 1280 Samples.network).
  vm_compute. reflexivity.
Defined.

(** The strides and the channel counts of the default network, element by
    element. *)
Example default_strides :
  flat_map (fun x => match x with Block b => [stride b] | Stack _ => [] end)
           (features Samples.network)
  = [1; 2; 1; 2; 1; 1; 2; 1; 1; 1; 1; 1; 1; 2; 1; 1; 1].
Proof. vm_compute. reflexivity. Qed.

Example default_channels :
  map (fun x => (feature_in x, feature_out x)) (features Samples.network)
  = map (fun io => (Some (fst io), Some (snd io)))
        [ (3, 32); (32, 16); (16, 24); (24, 24); (24, 32); (32, 32); (32, 32);
          (32, 64); (64, 64); (64, 64); (64, 64); (64, 96); (96, 96); (96, 96);
          (96, 160); (160, 160); (160, 160); (160, 320); (320, 1280) ].
Proof. vm_compute. reflexivity. Qed.


(** 1.5 times the default width gives a head of 1920 channels; half the
    width leaves it at 1280. *)
Example head_width_values :
  last_channel Samples.wide = 1920 /\ last_channel Samples.narrow = 1280.
Proof. split; vm_compute; reflexivity. Qed.


(** The first convolution of the default network: 3 x 3 kernel, 32 output
    channels, standard deviation [math.sqrt(2. / 288)]. *)
Example first_conv_initialized :
  nth_error (modules Samples.network) 0
  = Some (Conv2d 3 32 (3, 3) 2 1 1
            (Normal 0 (S754_finite false 6004799503160661 (-56))) None).
Proof. vm_compute. reflexivity. Qed.

(** Input sizes 224 and 225. *)
Example input_size_values :
  is_ok (SEMobileNetV2_init 1000 224 f_1_0 1280) = true
  /\ SEMobileNetV2_init 1000 225 f_1_0 1280 = Err AssertionError.
Proof. split; vm_compute; reflexivity. Qed.

End ArchFacts.

(* ================================================================== *)
(** * Forward passes: the gate and the shortcut *)
(* ================================================================== *)
Module ForwardFacts.
Import Py Py.Notations Arch Forward PyFacts ArchFacts.
Local Open Scope py_scope.


(** ** Arithmetic *)

Lemma row_major (b c n : nat) :
  (c < n)%nat -> ((b * n + c) / n = b /\ (b * n + c) mod n = c)%nat.
Proof.
  intros H. split; symmetry.
  - apply Nat.div_unique with (r := c); [exact H | lia].
  - apply Nat.mod_unique with (q := b); [exact H | lia].
Qed.

(** Row and column of a row-major offset, with the bound at hand. *)
Ltac row_simpl :=
  repeat match goal with
  | |- context [((?b * ?n + ?c) / ?n)%nat] =>
      rewrite (proj1 (@row_major b c n ltac:(assumption)))
  | |- context [((?b * ?n + ?c) mod ?n)%nat] =>
      rewrite (proj2 (@row_major b c n ltac:(assumption)))
  end.

Lemma sum_upto_ext (n : nat) (f g : nat -> R) :
  (forall i, (i < n)%nat -> f i = g i) -> sum_upto n f = sum_upto n g.
Proof.
  induction n as [|n IH]; intros H; cbn [sum_upto]; [reflexivity|].
  rewrite IH, (H n) by auto with arith. reflexivity.
Qed.

Lemma sigmoid_range (r : R) : (0 <= sigmoid r <= 1)%R.
Proof.
  unfold sigmoid. pose proof (exp_pos (- r)) as He.
  assert (Hd : (0 < 1 + exp (- r))%R) by lra.
  split.
  - apply Rlt_le. apply Rdiv_lt_0_compat; lra.
  - apply (Rmult_le_reg_r (1 + exp (- r))); [exact Hd|].
    unfold Rdiv. rewrite Rmult_assoc, Rinv_l by lra. lra.
Qed.

Lemma bidx_below (d i : nat) : (i < d)%nat -> bidx d i = i.
Proof.
  unfold bidx. destruct (d =? 1)%nat eqn:E; [|reflexivity].
  apply Nat.eqb_eq in E. lia.
Qed.

Lemma bdim_same (a : nat) : bdim a a = Ok a.
Proof. unfold bdim. now rewrite Nat.eqb_refl. Qed.

Lemma bdim_one (a : nat) : bdim a 1 = Ok a.
Proof.
  unfold bdim. destruct (a =? 1)%nat eqn:E; [|reflexivity].
  apply Nat.eqb_eq in E. now subst.
Qed.

(** ** The shape of a gate fixes its layers *)
Lemma gate_layers (channel : Z) (m0 : SEMobile init) (self : SEMobile param) :
  SEMobile_init channel 4 = Ok m0 ->
  SEMobile_map forget self = SEMobile_map forget m0 ->
  exists w1 b1 w2 b2,
    avg_pool self = AdaptiveAvgPool2d 1
    /\ fc self = [ Linear channel (channel / 4) w1 b1; ReLU6 true;
                   Linear (channel / 4) channel w2 b2; Sigmoid ].
Proof.
  rewrite SEMobile_init_4. intros [= <-] H.
  destruct self as [ap fcs]. unfold SEMobile_map in H.
  cbn [avg_pool fc map layer_map nn_Linear forget] in H.
  injection H as Hap Hfc.
  destruct ap; cbn in Hap; try discriminate. injection Hap as ->.
  destruct fcs as [|l1 [|l2 [|l3 [|l4 [|l5 rest]]]]]; cbn in Hfc;
    try discriminate.
  injection Hfc as H1 H2 H3 H4.
  destruct l1; cbn in H1; try discriminate. injection H1 as -> ->.
  destruct l2; cbn in H2; try discriminate. injection H2 as ->.
  destruct l3; cbn in H3; try discriminate. injection H3 as -> ->.
  destruct l4; cbn in H4; try discriminate.
  cbn [avg_pool fc]. eauto 6.
Qed.

Lemma linear_ok (i o : Z) (w b : param) (y : Tensor2) :
  Z.of_nat (cols y) = i ->
  linear i o w b y
  = Ok {| rows := rows y; cols := Z.to_nat o;
          at2 := fun r k =>
            (sum_upto (cols y) (fun n => at2 y r n * w [k; n]%nat)
             + b [k])%R |}.
Proof. intros H. unfold linear. now rewrite H, Z.eqb_refl. Qed.

(** ** Storage *)

Lemma nth_error_snoc {A : Type} (l : list A) (a : A) :
  nth_error (l ++ [a]) (List.length l) = Some a.
Proof. induction l as [|x l IH]; [reflexivity | exact IH]. Qed.

Lemma nth_error_before {A : Type} (l l' : list A) (n : nat) :
  (n < List.length l)%nat -> nth_error (l ++ l') n = nth_error l n.
Proof. intros H. now apply nth_error_app1. Qed.

Lemma deref2_snoc (hp : heap) (f : buffer) (b c : nat) :
  deref2 (hp ++ [f]) {| buf2 := List.length hp; ref_rows := b; ref_cols := c |}
  = Ok {| rows := b; cols := c; at2 := fun i j => f (i * c + j)%nat |}.
Proof. unfold deref2. cbn [buf2]. now rewrite nth_error_snoc. Qed.

Lemma deref4_snoc (hp : heap) (f : buffer) (b c h w : nat) :
  deref4 (hp ++ [f])
         {| buf4 := List.length hp; refB := b; refC := c; refH := h; refW := w |}
  = Ok {| dimB := b; dimC := c; dimH := h; dimW := w;
          at4 := fun i j p q => f (((i * c + j) * h + p) * w + q)%nat |}.
Proof. unfold deref4. cbn [buf4]. now rewrite nth_error_snoc. Qed.

Lemma deref4_before (hp l : heap) (r : Ref4) :
  (buf4 r < List.length hp)%nat -> deref4 (hp ++ l) r = deref4 hp r.
Proof. intros H. unfold deref4. now rewrite nth_error_before. Qed.

Lemma overwrite_snoc (hp : heap) (f g : buffer) :
  overwrite (List.length hp) g (hp ++ [f]) = hp ++ [g].
Proof.
  induction hp as [|h hp IH]; [reflexivity|].
  cbn [List.length app overwrite]. now rewrite IH.
Qed.

Lemma row_major4 (C H W b c i j : nat) :
  (c < C)%nat -> (i < H)%nat -> (j < W)%nat ->
  let k := (((b * C + c) * H + i) * W + j)%nat in
  (k / (C * H * W) = b /\ (k / (H * W)) mod C = c
   /\ (k / W) mod H = i /\ k mod W = j)%nat.
Proof.
  intros Hc Hi Hj k.
  destruct (row_major ((b * C + c) * H + i) Hj) as [E1 E2].
  destruct (row_major (b * C + c) Hi) as [E3 E4].
  destruct (row_major b Hc) as [E5 E6].
  assert (EHW : (k / (H * W) = b * C + c)%nat).
  { rewrite (Nat.mul_comm H W), <- Nat.Div0.div_div. unfold k.
    now rewrite E1, E3. }
  assert (ECHW : (k / (C * H * W) = b)%nat).
  { rewrite <- Nat.mul_assoc, (Nat.mul_comm C (H * W)), <- Nat.Div0.div_div.
    now rewrite EHW, E5. }
  unfold k in *. rewrite ECHW, EHW, E1, E2, E4, E6. auto.
Qed.

Section Gate.
Variable torch_call4 : layer param -> Tensor4 -> result Tensor4.
Variable torch_call2 : layer param -> Tensor2 -> result Tensor2.

(** The values: a gate on a feature map with [channel] channels scales every
    entry by the factor of its image and channel. *)
Lemma SEMobile_forward_scales
  (channel : Z) (m0 : SEMobile init) (self : SEMobile param) (x : Tensor4) :
  SEMobile_init channel 4 = Ok m0 ->
  SEMobile_map forget self = SEMobile_map forget m0 ->
  Z.of_nat (dimC x) = channel ->
  exists w1 b1 w2 b2 out,
    fc self = [ Linear channel (channel / 4) w1 b1; ReLU6 true;
                Linear (channel / 4) channel w2 b2; Sigmoid ]
    /\ SEMobile_forward torch_call4 torch_call2 self x = Ok out
    /\ (dimB out, dimC out, dimH out, dimW out)
       = (dimB x, dimC x, dimH x, dimW x)
    /\ forall b c i j : nat,
         (b < dimB x)%nat -> (c < dimC x)%nat ->
         (i < dimH x)%nat -> (j < dimW x)%nat ->
         let s := se_scale (Z.to_nat (channel / 4)) w1 b1 w2 b2 x b c in
         at4 out b c i j = (at4 x b c i j * s)%R /\ (0 <= s <= 1)%R.
Proof.
  intros Hinit Hshape Hch.
  destruct (gate_layers Hinit Hshape) as (w1 & b1 & w2 & b2 & Hap & Hfc).
  exists w1, b1, w2, b2.
  assert (Hh : (0 <= channel / 4)%Z) by (apply Z.div_pos; lia).
  assert (Hcn : Z.to_nat channel = dimC x) by (rewrite <- Hch; apply Nat2Z.id).
  unfold SEMobile_forward. rewrite Hap, Hfc. cbn [call4 bind].
  unfold view2. cbn [dimB dimC dimH dimW global_avg].
  rewrite !Nat.mul_1_r, Nat.eqb_refl. cbn [bind seq2 call2].
  rewrite linear_ok by exact Hch. cbn [bind].
  rewrite linear_ok by (cbn [cols map2]; now apply Z2Nat.id). cbn [bind].
  unfold view4. cbn [rows cols map2].
  rewrite Hcn, !Nat.mul_1_r, Nat.eqb_refl.
  cbn [bind]. unfold tensor_mul, broadcast. cbn [dimB dimC dimH dimW].
  rewrite !bdim_same, !bdim_one. cbn [bind].
  eexists. split; [reflexivity|]. split; [reflexivity|].
  split; [reflexivity|].
  intros b c i j Hb Hc Hi Hj. split; [|apply sigmoid_range].
  cbn [at4 at2 dimB dimC dimH dimW].
  rewrite !bidx_below by assumption.
  f_equal.
  change (bidx 1 i) with O. change (bidx 1 j) with O.
  rewrite !Nat.mul_1_r, !Nat.add_0_r.
  unfold flat2, se_scale. cbn [cols map2 at2 rows].
  destruct (row_major b Hc) as [-> ->].
  f_equal. f_equal. apply sum_upto_ext. intros k Hk.
  f_equal. f_equal. f_equal. apply sum_upto_ext. intros n Hn.
  f_equal. unfold flat4, channel_mean. cbn [global_avg at4 dimC dimH dimW].
  rewrite !Nat.mul_1_r, Nat.div_1_r.
  destruct (row_major b Hn) as [-> ->]. reflexivity.
Qed.
(** C5.  Take a gate with the layers [SEMobile(channel, reduction=4)]
    builds, whatever its parameter values, and a feature map [x] with
    [channel] channels in the storage.  [forward] returns a feature map of
    the size of [x] whose entry at [(b, c, i, j)] is the entry of [x] times a
    factor that depends on [b] and [c] alone and lies in [[0, 1]]: the
    sigmoid of the second linear layer on the [relu6] of the first linear
    layer (of [channel // 4] units) on the channel means of [x].  Every
    buffer that existed before the call, the one of [x] among them, holds
    after the call what it held before: the in-place [relu6] writes the
    output of the first linear layer. *)
Theorem SEMobile_rescales_channels
  (channel : Z) (m0 : SEMobile init) (self : SEMobile param)
  (hp : heap) (x : Ref4) (tx : Tensor4) :
  SEMobile_init channel 4 = Ok m0 ->
  SEMobile_map forget self = SEMobile_map forget m0 ->
  deref4 hp x = Ok tx ->
  Z.of_nat (dimC tx) = channel ->
  exists w1 b1 w2 b2 out hp' tout,
    fc self = [ Linear channel (channel / 4) w1 b1; ReLU6 true;
                Linear (channel / 4) channel w2 b2; Sigmoid ]
    /\ SEMobile_forward_st torch_call4 torch_call2 self x hp = Ok (out, hp')
    /\ (forall n, (n < List.length hp)%nat -> nth_error hp' n = nth_error hp n)
    /\ deref4 hp' x = Ok tx
    /\ deref4 hp' out = Ok tout
    /\ (dimB tout, dimC tout, dimH tout, dimW tout)
       = (dimB tx, dimC tx, dimH tx, dimW tx)
    /\ forall b c i j : nat,
         (b < dimB tx)%nat -> (c < dimC tx)%nat ->
         (i < dimH tx)%nat -> (j < dimW tx)%nat ->
         let s := se_scale (Z.to_nat (channel / 4)) w1 b1 w2 b2 tx b c in
         at4 tout b c i j = (at4 tx b c i j * s)%R /\ (0 <= s <= 1)%R.
Proof.
  intros Hinit Hshape Hx Hch.
  destruct (gate_layers Hinit Hshape) as (w1 & b1 & w2 & b2 & Hap & Hfc).
  exists w1, b1, w2, b2.
  assert (Hh : (0 <= channel / 4)%Z) by (apply Z.div_pos; lia).
  assert (Hcn : Z.to_nat channel = dimC tx) by (rewrite <- Hch; apply Nat2Z.id).
  assert (Hlive : (buf4 x < List.length hp)%nat).
  { unfold deref4 in Hx. apply nth_error_Some.
    destruct (nth_error hp (buf4 x)); [discriminate | discriminate Hx]. }
  assert (Hdims : (refB x, refC x, refH x, refW x)
                  = (dimB tx, dimC tx, dimH tx, dimW tx)).
  { unfold deref4 in Hx. destruct (nth_error hp (buf4 x)); [|discriminate Hx].
    now injection Hx as <-. }
  injection Hdims as HB HC HH HW.
  unfold SEMobile_forward_st. rewrite Hap, Hfc, HB, HC.
  (* the pooled means, on a buffer of their own *)
  unfold call4_st. rewrite Hx. cbn [bind call4].
  unfold new4. cbn [fst snd global_avg dimB dimC dimH dimW].
  unfold view2_ref. cbn [refB refC refH refW buf4].
  rewrite !Nat.mul_1_r, Nat.eqb_refl. cbn [bind seq2_st].
  (* first linear layer *)
  unfold call2_st at 1. rewrite deref2_snoc. cbn [bind call2].
  rewrite linear_ok by exact Hch. cbn [bind].
  unfold new2. cbn [fst snd rows cols].
  (* relu6, in place *)
  unfold call2_st at 1. rewrite deref2_snoc. cbn [bind buf2 fst snd].
  rewrite overwrite_snoc.
  (* second linear layer *)
  unfold call2_st at 1. rewrite deref2_snoc. cbn [bind call2].
  rewrite linear_ok by (cbn [cols]; now apply Z2Nat.id). cbn [bind].
  unfold new2. cbn [fst snd rows cols].
  (* sigmoid *)
  unfold call2_st at 1. rewrite deref2_snoc. cbn [bind call2].
  unfold new2. cbn [fst snd rows cols map2].
  (* back to four dimensions, and the product *)
  unfold view4_ref. cbn [ref_rows ref_cols buf2].
  rewrite Hcn, !Nat.mul_1_r, Nat.eqb_refl. cbn [bind].
  unfold mul_st.
  rewrite !deref4_before by (rewrite ?length_app; cbn [List.length]; lia).
  rewrite Hx. cbn [bind]. rewrite deref4_snoc. cbn [bind].
  unfold tensor_mul, broadcast. cbn [dimB dimC dimH dimW].
  rewrite !bdim_same, !bdim_one. cbn [bind].
  unfold new4. cbn [dimB dimC dimH dimW].
  do 3 eexists.
  split; [reflexivity|]. split; [reflexivity|].
  split.
  { intros n Hn.
    now rewrite !nth_error_before by (rewrite ?length_app; cbn [List.length]; lia). }
  split.
  { rewrite !deref4_before by (rewrite ?length_app; cbn [List.length]; lia).
    exact Hx. }
  split; [apply deref4_snoc|].
  split; [reflexivity|].
  intros b c i j Hb Hc Hi Hj. split; [|apply sigmoid_range].
  cbn [at4]. unfold flat4, flat2.
  cbn [at4 at2 dimC dimH dimW rows cols map2 global_avg].
  destruct (row_major4 b Hc Hi Hj) as (-> & -> & -> & ->).
  rewrite !bidx_below by assumption.
  change (bidx 1 i) with O. change (bidx 1 j) with O.
  rewrite !Nat.mul_1_r, !Nat.add_0_r.
  unfold se_scale. row_simpl.
  f_equal. f_equal. f_equal.
  apply sum_upto_ext. intros n Hn. row_simpl.
  f_equal. f_equal. f_equal.
  apply sum_upto_ext. intros n0 Hn0. rewrite Nat.div_1_r. row_simpl.
  reflexivity.
Qed.
End Gate.

Section Shortcut.
Variable torch_call4 : layer param -> Tensor4 -> result Tensor4.
Variable torch_call2 : layer param -> Tensor2 -> result Tensor2.

End Shortcut.

Lemma SEMobile_rescales_channels_witness :
  exists w1 b1 w2 b2 out hp' tout,
    fc Samples.gate = [ Linear 16 (16 / 4) w1 b1; ReLU6 true;
                        Linear (16 / 4) 16 w2 b2; Sigmoid ]
    /\ SEMobile_forward_st Samples.pass4 Samples.pass2 Samples.gate
         Samples.ones_ref Samples.ones_heap
       = Ok (out, hp')
    /\ (forall n, (n < List.length Samples.ones_heap)%nat ->
                  nth_error hp' n = nth_error Samples.ones_heap n)
    /\ deref4 hp' Samples.ones_ref = Ok Samples.ones
    /\ deref4 hp' out = Ok tout
    /\ (dimB tout, dimC tout, dimH tout, dimW tout) = (1, 16, 2, 2)%nat
    /\ forall b c i j : nat,
         (b < 1)%nat -> (c < 16)%nat -> (i < 2)%nat -> (j < 2)%nat ->
         let s := se_scale (Z.to_nat (16 / 4)) w1 b1 w2 b2 Samples.ones b c in
         at4 tout b c i j = (at4 Samples.ones b c i j * s)%R
         /\ (0 <= s <= 1)%R.
Proof.
  apply (@SEMobile_rescales_channels Samples.pass4 Samples.pass2 16%Z
           Samples.gate_init Samples.gate Samples.ones_heap Samples.ones_ref
           Samples.ones);
    reflexivity.
Defined.

(** On the sample, every factor is [sigmoid 0 = 1/2]: the parameters are 0. *)
Example gate_of_zeros (b c : nat) :
  se_scale 4 (Samples.zeros TorchDefault) (Samples.zeros TorchDefault)
           (Samples.zeros TorchDefault) (Samples.zeros TorchDefault)
           Samples.ones b c
  = (1 / 2)%R.
Proof.
  unfold se_scale, Samples.zeros, sigmoid. cbn [sum_upto].
  rewrite !Rmult_0_r, !Rplus_0_l, Ropp_0, exp_0. lra.
Qed.


End ForwardFacts.

(* ================================================================== *)
(** * The loader: key handling and assignment *)
(* ================================================================== *)
Module LoaderFacts.
Import Py Py.Notations Arch Loader PyFacts.
Local Open Scope py_scope.
Local Open Scope string_scope.
Local Open Scope list_scope.

Section Keys.
Context {V : Type}.
Implicit Types (d checkpoint model sd : dict V).

Lemma keys_dict_set d (k k' : string) (v : V) :
  In k' (keys (dict_set d k v)) <-> In k' (keys d) \/ k' = k.
Proof.
  induction d as [|[k1 v1] d IH]; simpl.
  - intuition congruence.
  - destruct (String.eqb k k1) eqn:E; simpl.
    + apply String.eqb_eq in E. subst. intuition congruence.
    + rewrite IH. tauto.
Qed.

Lemma keys_fold_strip (l acc : dict V) (k : string) :
  In k (keys (fold_left
                (fun d kv => dict_set d (str_remove "module." (fst kv)) (snd kv))
                l acc))
  <-> In k (keys acc) \/ In k (map (str_remove "module.") (keys l)).
Proof.
  revert acc. induction l as [|[k1 v1] l IH]; intros acc; simpl.
  - tauto.
  - rewrite IH, keys_dict_set. simpl. intuition congruence.
Qed.

Lemma keys_strip_keys checkpoint (k : string) :
  In k (keys (strip_keys checkpoint))
  <-> In k (map (str_remove "module.") (keys checkpoint)).
Proof. unfold strip_keys. rewrite keys_fold_strip. simpl. tauto. Qed.

Lemma str_remove_prefixed (k : string) :
  str_in "module." k = false -> str_remove "module." ("module." ++ k)%string = k.
Proof.
  intros H. unfold str_remove.
  rewrite (remove_from_occurrence "m" "odule." k).
  now apply remove_from_absent.
Qed.

Lemma fold_strip_prefixed (l acc : dict V) :
  NoDup (keys (acc ++ l)) ->
  (forall k, In k (keys l) -> str_in "module." k = false) ->
  fold_left (fun d kv => dict_set d (str_remove "module." (fst kv)) (snd kv))
            (add_prefix l) acc
  = acc ++ l.
Proof.
  revert acc. induction l as [|[k v] l IH]; intros acc Hnd Hno.
  - simpl. now rewrite app_nil_r.
  - cbn [add_prefix map fold_left fst snd].
    rewrite str_remove_prefixed by (apply Hno; now left).
    rewrite dict_set_fresh.
    + fold (add_prefix l). rewrite IH.
      * now rewrite <- app_assoc.
      * now rewrite <- app_assoc.
      * intros k' Hk'. apply Hno. now right.
    + unfold keys in Hnd. rewrite map_app in Hnd. simpl in Hnd.
      now apply NoDup_remove_2 in Hnd; rewrite in_app_iff in Hnd; tauto.
Qed.

Lemma strip_keys_prefixed checkpoint :
  NoDup (keys checkpoint) ->
  (forall k, In k (keys checkpoint) -> str_in "module." k = false) ->
  strip_keys (add_prefix checkpoint) = checkpoint.
Proof. intros Hnd Hno. unfold strip_keys. now rewrite fold_strip_prefixed. Qed.

Lemma remove_prefixed (k : string) :
  str_remove "module." ("module." ++ k)%string = str_remove "module." k.
Proof. apply (remove_from_occurrence "m" "odule." k). Qed.

(** The prefix goes with the other occurrences. *)
Lemma strip_keys_add_prefix checkpoint :
  strip_keys (add_prefix checkpoint) = strip_keys checkpoint.
Proof.
  unfold strip_keys. generalize (@nil (string * V)) as acc.
  induction checkpoint as [|[k v] l IH]; intros acc; [reflexivity|].
  cbn [add_prefix map fold_left fst snd].
  rewrite remove_prefixed. apply IH.
Qed.




Lemma startswith_inv (p s : string) :
  startswith p s = true -> exists r, s = (p ++ r)%string.
Proof.
  revert s. induction p as [|a p IH]; intros s H.
  - exists s. reflexivity.
  - destruct s as [|b s]; cbn [startswith] in H; [discriminate|].
    apply andb_prop in H. destruct H as [Hab H].
    apply Ascii.eqb_eq in Hab. subst b.
    destruct (IH s H) as [r ->]. exists r. reflexivity.
Qed.

(** The checkpoints whose keys all carry the prefix are those of wrapped
    networks. *)
Lemma prefixed_iff_add_prefix checkpoint :
  Forall (fun k => startswith "module." k = true) (keys checkpoint)
  <-> exists plain : dict V, checkpoint = add_prefix plain.
Proof.
  split.
  - induction checkpoint as [|[k v] l IH]; intros H.
    + exists []. reflexivity.
    + cbn [keys map fst] in H. inversion H as [|x xs Hk Hl]; subst.
      destruct (startswith_inv _ _ Hk) as [r ->].
      destruct (IH Hl) as [plain ->].
      exists ((r, v) :: plain). reflexivity.
  - intros [plain ->]. induction plain as [|[k v] l IH];
      cbn [add_prefix keys map fst]; constructor.
    + apply (startswith_app "module." k).
    + exact IH.
Qed.

Variable shape : V -> list nat.






End Keys.

Section WithLibrary.
Variable V : Type.
Variable shape : V -> list nat.
Variable state_dict : SEMobileNetV2 init -> dict V.
Variable load_state_dict_from_url : string -> result (dict (dict V)).
Variable torch_load : string -> result (dict (dict V)).
Variable models_dir : string.

(** C10.  Only the first key of the checkpoint decides: when it does not
    contain ['module.'] the mapping is passed on unchanged, whatever the
    other keys are; when it does, every key [k] is replaced by
    [k.replace('module.', '')], which deletes the occurrences of
    ['module.'] wherever they stand in the key, not only a leading one. *)
Theorem first_key_decides_normalization
  (k0 : string) (v0 : V) (rest : dict V) :
  let checkpoint := (k0, v0) :: rest in
  (str_in "module." k0 = false -> new_state_dict checkpoint = Ok checkpoint)
  /\ (str_in "module." k0 = true ->
      new_state_dict checkpoint = Ok (strip_keys checkpoint)
      /\ forall k, In k (keys (strip_keys checkpoint))
                   <-> In k (map (str_remove "module.") (keys checkpoint)))
  /\ (forall a b : string,
        str_in "module." a = false ->
        str_remove "module." (a ++ "module." ++ b)%string
        = (a ++ str_remove "module." b)%string).
Proof.
  intros checkpoint. repeat split.
  - intros H. unfold new_state_dict, checkpoint. cbn [keys map fst].
    now rewrite H.
  - unfold new_state_dict, checkpoint. cbn [keys map fst]. now rewrite H.
  - now apply keys_strip_keys.
  - now apply keys_strip_keys.
  - intros a b. apply remove_module_middle.
Qed.

(** C2, amended.  The loader looks at the first key alone: a checkpoint it
    is given is passed on with every key rewritten when its first key
    contains ['module.'], and as it is when the first key does not, whatever
    the other keys are.  The checkpoints whose keys all carry the prefix are
    the [add_prefix plain].  For a checkpoint (a mapping: no key twice) in
    which, if the first key does not contain ['module.'], no key does:
    loading the checkpoint with the prefix on every key gives what loading
    the checkpoint itself gives, the same parameters or the same error. *)
Theorem prefixed_checkpoint_loads_alike
  (model : Model V) (checkpoint : dict V) :
  (forall (given : dict V) k0,
      hd_error (keys given) = Some k0 ->
      new_state_dict given
      = Ok (if str_in "module." k0 then strip_keys given else given))
  /\ (forall (given : dict V) k,
        In k (keys (strip_keys given))
        <-> In k (map (str_remove "module.") (keys given)))
  /\ (forall given : dict V,
        Forall (fun k => startswith "module." k = true) (keys given)
        <-> exists plain : dict V, given = add_prefix plain)
  /\ (NoDup (keys checkpoint) ->
      (forall k0, hd_error (keys checkpoint) = Some k0 ->
                  str_in "module." k0 = false ->
                  forall k, In k (keys checkpoint) ->
                            str_in "module." k = false) ->
      (checkpoint <> [] ->
       new_state_dict (add_prefix checkpoint)
       = Ok (strip_keys (add_prefix checkpoint)))
      /\ new_state_dict (add_prefix checkpoint) = new_state_dict checkpoint
      /\ load_checkpoint shape model (add_prefix checkpoint)
         = load_checkpoint shape model checkpoint).
Proof.
  split; [|split; [|split]].
  - intros [|[k v] rest] k0 H; [discriminate H|].
    cbn [keys map fst hd_error] in H. injection H as ->.
    unfold new_state_dict. cbn [keys map fst].
    now destruct (str_in "module." k0).
  - intros given k. apply keys_strip_keys.
  - intros given. apply prefixed_iff_add_prefix.
  - intros Hnd Hno.
    assert (H1 : checkpoint <> [] ->
                 new_state_dict (add_prefix checkpoint)
                 = Ok (strip_keys (add_prefix checkpoint))).
    { destruct checkpoint as [|[k0 v0] rest]; [congruence|]. intros _.
      unfold new_state_dict.
      replace (keys (add_prefix ((k0, v0) :: rest)))
        with (("module." ++ k0)%string :: keys (add_prefix rest))
        by reflexivity.
      now rewrite str_in_app. }
    assert (H2 : new_state_dict (add_prefix checkpoint)
                 = new_state_dict checkpoint).
    { destruct checkpoint as [|[k0 v0] rest]; [reflexivity|].
      rewrite H1 by discriminate.
      unfold new_state_dict. cbn [keys map fst].
      destruct (str_in "module." k0) eqn:E.
      - now rewrite strip_keys_add_prefix.
      - rewrite strip_keys_prefixed; [reflexivity | exact Hnd |].
        now apply (Hno k0). }
    split; [exact H1|]. split; [exact H2|].
    unfold load_checkpoint. now rewrite H2.
Qed.

End WithLibrary.

(** C10 on a checkpoint whose second key alone carries the prefix, and on a
    key with the prefix inside. *)
Lemma first_key_decides_normalization_witness :
  new_state_dict Samples.mixed = Ok Samples.mixed
  /\ new_state_dict Samples.inner = Ok [("features.0.weight", 1%nat)].
Proof.
  split.
  - apply (proj1 (first_key_decides_normalization
                    "features.0.0.weight" 1%nat
                    [("module.classifier.1.bias", 2%nat)])).
    reflexivity.
  - apply (proj1 (proj1 (proj2 (first_key_decides_normalization
                    "module.features.module.0.weight" 1%nat [])) eq_refl)).
Defined.

(** C2 as stated fails.  A key of [Samples.mixed] contains the prefix, yet
    no key is rewritten: the strict load rejects the checkpoint, which would
    load once stripped.  And the keys of [add_prefix Samples.mixed] all
    carry the prefix, yet loading it succeeds and loading [Samples.mixed]
    raises. *)
Lemma any_key_with_prefix_is_not_enough :
  (existsb (str_in "module.") (keys Samples.mixed) = true
   /\ new_state_dict Samples.mixed = Ok Samples.mixed
   /\ new_state_dict Samples.mixed <> Ok (strip_keys Samples.mixed)
   /\ load_checkpoint Samples.scalar Samples.fresh_model Samples.mixed = Err RuntimeError
   /\ is_ok (load_checkpoint Samples.scalar Samples.fresh_model (strip_keys Samples.mixed))
      = true)
  /\ (forallb (startswith "module.") (keys (add_prefix Samples.mixed)) = true
      /\ is_ok (load_checkpoint Samples.scalar Samples.fresh_model
                  (add_prefix Samples.mixed)) = true
      /\ load_checkpoint Samples.scalar Samples.fresh_model Samples.mixed
         = Err RuntimeError).
Proof.
  repeat split; try (vm_compute; reflexivity).
  vm_compute. discriminate.
Qed.

Lemma prefixed_checkpoint_loads_alike_witness :
  new_state_dict (add_prefix Samples.unwrapped) = Ok Samples.unwrapped
  /\ load_checkpoint Samples.scalar Samples.fresh_model
       (add_prefix Samples.unwrapped)
     = load_checkpoint Samples.scalar Samples.fresh_model Samples.unwrapped
  /\ load_checkpoint Samples.scalar Samples.fresh_model
       (add_prefix Samples.wrapped)
     = load_checkpoint Samples.scalar Samples.fresh_model Samples.wrapped
  /\ new_state_dict Samples.mixed = Ok Samples.mixed.
Proof.
  assert (Hnd : forall a b : string, a <> b -> NoDup [a; b]).
  { intros a b Hab. repeat constructor; cbn; intuition congruence. }
  destruct (@prefixed_checkpoint_loads_alike nat Samples.scalar
              Samples.fresh_model Samples.unwrapped) as (H0 & _ & _ & Hu).
  destruct Hu as (H1 & _ & H3).
  { apply Hnd. discriminate. }
  { cbn. intros k0 _ _ k [<-|[<-|[]]]; reflexivity. }
  destruct (@prefixed_checkpoint_loads_alike nat Samples.scalar
              Samples.fresh_model Samples.wrapped) as (_ & _ & _ & Hw).
  destruct Hw as (_ & _ & H4).
  { apply Hnd. discriminate. }
  { cbn. intros k0 [= <-]. discriminate. }
  split; [|split; [assumption | split; [assumption|]]].
  - rewrite H1 by discriminate. reflexivity.
  - apply (H0 Samples.mixed "features.0.0.weight"). reflexivity.
Defined.



(** The local file of the samples matches the two names: the call returns
    the network with both values taken from the file. *)
Example load_from_disk :
  match se_mobilenet_v2 Samples.scalar Samples.two_params Samples.from_url
                        Samples.from_disk "models" true false 1000 1280 false
  with
  | Ok model => params model = Samples.unwrapped
  | Err _ => False
  end.
Proof. vm_compute. reflexivity. Qed.

(** Without [pretrained] nothing is read. *)
Example not_pretrained :
  match se_mobilenet_v2 Samples.scalar Samples.two_params Samples.from_url
                        Samples.from_disk "models" false false 1000 1280 true
  with
  | Ok model => params model = Samples.two_params Samples.network
  | Err _ => False
  end.
Proof. vm_compute. reflexivity. Qed.

End LoaderFacts.

(* ================================================================== *)
(** * The architecture: invariants of the constructed network *)
(* ================================================================== *)
Module ArchInvariants.
Import Py Py.Notations Arch PyFacts ArchFacts.
Local Open Scope py_scope.
Local Open Scope Z_scope.

(** ** Initialisation and the architecture *)

Lemma init_seq_arch (s s' : Sequential init) :
  init_seq s = Ok s' ->
  map (layer_map forget) s' = map (layer_map forget) s.
Proof.
  intros H. apply init_seq_ok in H. destruct H as [_ H].
  induction H as [|m m' s s' Hm _ IH]; [reflexivity|].
  cbn [map]. now rewrite Hm, IH.
Qed.

Lemma init_InvertedResidual_arch (b b' : InvertedResidual init) :
  init_InvertedResidual b = Ok b' ->
  InvertedResidual_map forget b' = InvertedResidual_map forget b.
Proof.
  unfold init_InvertedResidual. intros H.
  step_bind H; [|discriminate]. step_bind H; [|discriminate].
  injection H as <-. unfold init_SEMobile in E0.
  step_bind E0; [|discriminate]. step_bind E0; [|discriminate].
  injection E0 as <-.
  apply init_seq_arch in E, E2. apply init_module_ok in E1.
  destruct E1 as [_ Hap]. unfold layer_kept in Hap.
  unfold InvertedResidual_map, SEMobile_map.
  cbn [stride use_res_connect conv se avg_pool fc].
  now rewrite E, E2, Hap.
Qed.

Lemma init_feature_arch (x x' : feature init) :
  init_feature x = Ok x' -> feature_map forget x' = feature_map forget x.
Proof.
  destruct x as [s|b]; cbn [init_feature]; intros H; inv_ok; subst x';
    cbn [feature_map].
  - now rewrite (init_seq_arch _ Hc).
  - now rewrite (init_InvertedResidual_arch _ Hc).
Qed.

Lemma init_features_arch (fs fs' : list (feature init)) :
  init_features fs = Ok fs' ->
  Forall2 (fun x x' => feature_map forget x' = feature_map forget x) fs fs'.
Proof.
  revert fs'. induction fs as [|x fs IH]; cbn [init_features]; intros fs' H.
  - injection H as <-. constructor.
  - inv_ok. subst fs'. constructor; [now apply init_feature_arch | now apply IH].
Qed.

Lemma Forall2_map_eq {A B : Type} (f : A -> B) (xs ys : list A) :
  Forall2 (fun x y => f y = f x) xs ys -> map f ys = map f xs.
Proof. induction 1 as [|x y xs ys H _ IH]; cbn; congruence. Qed.

(** X1.  [_initialize_weights] writes parameters only: the network it
    returns has the architecture of the network it was given (the same
    layers with the same sizes, strides and flags, in the same places). *)
Theorem initialization_keeps_architecture (m m' : SEMobileNetV2 init) :
  _initialize_weights m = Ok m' ->
  SEMobileNetV2_map forget m' = SEMobileNetV2_map forget m.
Proof.
  unfold _initialize_weights. intros H. inv_ok. subst m'.
  apply init_features_arch, Forall2_map_eq in Hc. apply init_seq_arch in Hc0.
  unfold SEMobileNetV2_map. cbn [last_channel features classifier].
  now rewrite Hc, Hc0.
Qed.

Lemma initialization_keeps_architecture_witness :
  exists m',
    _initialize_weights Samples.raw = Ok m'
    /\ SEMobileNetV2_map forget m' = SEMobileNetV2_map forget Samples.raw
    /\ m' <> Samples.raw.
Proof.
  destruct (_initialize_weights Samples.raw) as [m'|e] eqn:E;
    [|vm_compute in E; discriminate E].
  exists m'. split; [reflexivity|].
  split; [exact (initialization_keeps_architecture _ E)|].
  intros ->. vm_compute in E. discriminate E.
Defined.

(** ** The loops, block by block *)

Lemma append_blocks_built (t oc s : Z) (count : nat) :
  forall (i : Z) (fs fs' : list (feature init)) (ic ic' : Z),
    for_range (append_block t oc s) i count (fs, ic) = Ok (fs', ic') ->
    exists blocks,
      fs' = fs ++ map (@Block init) blocks
      /\ List.length blocks = count
      /\ forall (k : nat) (b : InvertedResidual init),
           nth_error blocks k = Some b ->
           InvertedResidual_init (if (k =? 0)%nat then ic else oc) oc
             (if i + Z.of_nat k =? 0 then s else 1) t = Ok b.
Proof.
  induction count as [|count IH]; cbn [for_range]; intros i fs fs' ic ic' H.
  - injection H as <- <-. exists []. rewrite app_nil_r.
    split; [reflexivity|]. split; [reflexivity|].
    intros [|k] b; discriminate.
  - step_bind H; [|discriminate].
    unfold append_block in E. step_bind E; [|discriminate].
    injection E as <-.
    apply IH in H. destruct H as (blocks & -> & Hlen & Hb).
    exists (a0 :: blocks). cbn [map List.length].
    split; [now rewrite <- app_assoc|].
    split; [now rewrite Hlen|].
    intros [|k] b Hk; cbn [nth_error] in Hk.
    + injection Hk as <-. cbn [Nat.eqb]. now rewrite Z.add_0_r.
    + cbn [Nat.eqb]. specialize (Hb k b Hk).
      replace (i + Z.of_nat (S k)) with (i + 1 + Z.of_nat k) by lia.
      destruct k; exact Hb.
Qed.

Lemma block_built_refl (ic oc st t : Z) (b : InvertedResidual init) :
  InvertedResidual_init ic oc st t = Ok b -> block_built ic oc st t b.
Proof. intros H. exists b. now split. Qed.

Lemma append_stages_built (w : float) (settings : list (Z * Z * Z * Z)) :
  forall (fs fs' : list (feature init)) (ic ic' : Z),
    for_each (append_stage w) settings (fs, ic) = Ok (fs', ic') ->
    exists stages,
      fs' = fs ++ map (@Block init) (List.concat stages)
      /\ Forall2 (stage_built w) settings stages.
Proof.
  induction settings as [|[[[t c] n] s] settings IH]; cbn [for_each];
    intros fs fs' ic ic' H.
  - injection H as <- <-. exists []. cbn. rewrite app_nil_r. auto.
  - step_bind H; [|discriminate]. destruct a as [fs1 ic1].
    unfold append_stage in E. step_bind E; [|discriminate].
    apply append_blocks_built in E. destruct E as (blocks & -> & Hlen & Hb).
    apply IH in H. destruct H as (stages & -> & HF).
    exists (blocks :: stages). cbn [List.concat]. rewrite map_app, app_assoc.
    split; [reflexivity|]. constructor; [|exact HF].
    cbn [stage_built]. exists a. split; [exact E0|]. split; [exact Hlen|].
    intros i b Hi. specialize (Hb i b Hi). cbn [Z.add] in Hb.
    exists (if (i =? 0)%nat then ic else a). split.
    + apply block_built_refl. destruct i; exact Hb.
    + intros Hne. destruct i; [contradiction | reflexivity].
Qed.

(** ** What depends on the architecture alone *)
Section Forget.
Context {P Q : Type} (f : P -> Q).

Lemma first_conv_in_map (s : Sequential P) :
  first_conv_in (map (layer_map f) s) = first_conv_in s.
Proof. induction s as [|m s IH]; [reflexivity|]. destruct m; cbn; auto. Qed.

Lemma last_conv_out_map (s : Sequential P) :
  last_conv_out (map (layer_map f) s) = last_conv_out s.
Proof.
  induction s as [|m s IH]; [reflexivity|].
  cbn [map last_conv_out]. rewrite IH. destruct m; reflexivity.
Qed.

Lemma stride_product_map (ms : list (layer P)) :
  stride_product (map (layer_map f) ms) = stride_product ms.
Proof.
  induction ms as [|m ms IH]; [reflexivity|].
  destruct m; cbn [map layer_map stride_product]; now rewrite IH.
Qed.

Lemma list_ind2 {A : Type} (R : list A -> Prop) :
  R [] -> (forall x, R [x]) ->
  (forall x y l, R l -> R (y :: l) -> R (x :: y :: l)) ->
  forall l, R l.
Proof.
  intros H0 H1 H2. assert (H : forall l, R l /\ forall x, R (x :: l)).
  { induction l as [|y l [IH1 IH2]]; split; auto. }
  intros l. apply H.
Qed.

Lemma conv_then_bn_map (s : Sequential P) :
  conv_then_bn (map (layer_map f) s) <-> conv_then_bn s.
Proof.
  induction s as [|x|x y l IH1 IH2] using list_ind2.
  - reflexivity.
  - destruct x; cbn; tauto.
  - destruct x;
      try (change (conv_then_bn (map (layer_map f) (y :: l))
                   <-> conv_then_bn (y :: l)); exact IH2);
      try (cbn; tauto).
    destruct y; try (cbn; tauto).
    cbn [map layer_map conv_then_bn]. rewrite IH1.
    destruct bias; cbn [option_map]; intuition discriminate.
Qed.

Lemma InvertedResidual_modules_map (b : InvertedResidual P) :
  InvertedResidual_modules (InvertedResidual_map f b)
  = map (layer_map f) (InvertedResidual_modules b).
Proof.
  unfold InvertedResidual_modules, SEMobile_modules, InvertedResidual_map,
    SEMobile_map.
  cbn [conv se avg_pool fc]. now rewrite map_app.
Qed.
End Forget.

Lemma stride_product_app {P : Type} (xs ys : list (layer P)) :
  stride_product (xs ++ ys) = stride_product xs * stride_product ys.
Proof.
  induction xs as [|m xs IH]; cbn [app stride_product].
  - now destruct (stride_product ys).
  - destruct m; rewrite IH; ring.
Qed.

(** What a block with a known architecture looks like. *)
Lemma block_built_facts (ic oc st t : Z) (b : InvertedResidual init) :
  block_built ic oc st t b ->
  (st = 1 \/ st = 2)
  /\ stride b = st
  /\ use_res_connect b = (st =? 1) && (ic =? oc)
  /\ first_conv_in (conv b) = Some ic
  /\ last_conv_out (conv b) = Some oc
  /\ conv_then_bn (conv b)
  /\ stride_product (InvertedResidual_modules b) = st
  /\ exists m0, SEMobile_init oc 4 = Ok m0
                /\ SEMobile_map forget (se b) = SEMobile_map forget m0.
Proof.
  intros (b0 & Hinit & Harch).
  assert (Hs : stride b = stride b0)
    by exact (f_equal (@stride unit) Harch).
  assert (Hu : use_res_connect b = use_res_connect b0)
    by exact (f_equal (@use_res_connect unit) Harch).
  assert (Hc : map (layer_map forget) (conv b) = map (layer_map forget) (conv b0))
    by exact (f_equal (@conv unit) Harch).
  assert (Hg : SEMobile_map forget (se b) = SEMobile_map forget (se b0))
    by exact (f_equal (@se unit) Harch).
  assert (Hm : stride_product (InvertedResidual_modules b)
               = stride_product (InvertedResidual_modules b0)).
  { rewrite <- (stride_product_map forget (InvertedResidual_modules b)),
      <- (stride_product_map forget (InvertedResidual_modules b0)),
      <- !InvertedResidual_modules_map. now rewrite Harch. }
  pose proof (InvertedResidual_init_ok _ _ _ _ Hinit)
    as (H12 & Hst & Hres & Hin & Hout & Hse).
  rewrite Hs, Hu, Hm.
  rewrite <- (first_conv_in_map forget (conv b)),
    <- (last_conv_out_map forget (conv b)), Hc,
    first_conv_in_map, last_conv_out_map.
  rewrite <- (conv_then_bn_map forget (conv b)), Hc, conv_then_bn_map.
  repeat (split; [assumption|]).
  unfold InvertedResidual_init in Hinit.
  apply stride_in_1_2 in H12. rewrite H12, SEMobile_init_4 in Hinit.
  cbn [py_assert bind] in Hinit. injection Hinit as <-.
  unfold InvertedResidual_modules, SEMobile_modules.
  cbn [conv se avg_pool fc].
  split; [|split].
  - destruct (t =? 1); cbn; repeat split.
  - destruct (t =? 1); cbn [stride_product app nn_Conv2d nn_BatchNorm2d nn_Linear];
      lia.
  - eexists. split; [exact Hse | exact Hg].
Qed.

(** ** The feature list after initialisation *)

Lemma arch_body (bs : list (InvertedResidual init)) (h : Sequential init)
  (fs' : list (feature init)) :
  Forall2 (fun x x' => feature_map forget x' = feature_map forget x)
          (map (@Block init) bs ++ [Stack h]) fs' ->
  exists bs' h',
    fs' = map (@Block init) bs' ++ [Stack h']
    /\ Forall2 (fun b b' => InvertedResidual_map forget b'
                            = InvertedResidual_map forget b) bs bs'
    /\ map (layer_map forget) h' = map (layer_map forget) h.
Proof.
  revert fs'. induction bs as [|b bs IH]; cbn [map app]; intros fs' H.
  - inversion H as [|x x' l l' Hx Hl]; subst. inversion Hl; subst.
    destruct x' as [h'|b']; cbn [feature_map] in Hx; [|discriminate].
    injection Hx as Hx. exists [], h'. repeat split; [constructor | exact Hx].
  - inversion H as [|x x' l l' Hx Hl]; subst.
    destruct x' as [h'|b']; cbn [feature_map] in Hx; [discriminate|].
    assert (Hb : InvertedResidual_map forget b' = InvertedResidual_map forget b)
      by congruence.
    apply IH in Hl. destruct Hl as (bs' & h' & -> & HF & Hh).
    exists (b' :: bs'), h'. repeat split; [now constructor | exact Hh].
Qed.

Lemma stage_built_arch (w : float) (setting : Z * Z * Z * Z)
  (bs bs' : list (InvertedResidual init)) :
  stage_built w setting bs ->
  Forall2 (fun b b' => InvertedResidual_map forget b'
                       = InvertedResidual_map forget b) bs bs' ->
  stage_built w setting bs'.
Proof.
  destruct setting as [[[t c] n] s]. cbn [stage_built].
  intros (oc & Hoc & Hlen & Hb) HF. exists oc. split; [exact Hoc|].
  split; [now rewrite <- (Forall2_length HF)|].
  intros i b' Hi.
  destruct (Forall2_nth_error_r HF i Hi) as (b & Hbi & Harch).
  destruct (Hb i b Hbi) as (ic & (b0 & Hinit & Hb0) & Hic).
  exists ic. split; [|exact Hic]. exists b0. split; [exact Hinit|congruence].
Qed.

Lemma stage_built_ok (w : float) (setting : Z * Z * Z * Z)
  (bs : list (InvertedResidual init)) :
  stage_built w setting bs -> stage_ok setting bs.
Proof.
  destruct setting as [[[t c] n] s]. cbn [stage_built stage_ok].
  intros (oc & _ & Hlen & Hb). split; [exact Hlen|].
  intros i b Hi. destruct (Hb i b Hi) as (ic & Hbuilt & _).
  now apply block_built_facts in Hbuilt.
Qed.

(** Stem, stages and head of a constructed network. *)
Lemma network_stages (n_class input_size : Z) (w : float) (lc : Z)
  (model : SEMobileNetV2 init) :
  SEMobileNetV2_init n_class input_size w lc = Ok model ->
  exists ic0 ic1 stem stages head,
    scaled 32 w = Ok ic0
    /\ features model
       = Stack stem :: map (@Block init) (List.concat stages) ++ [Stack head]
    /\ map (layer_map forget) stem = map (layer_map forget) (conv_bn 3 ic0 2)
    /\ Forall2 (stage_built w) interverted_residual_setting stages
    /\ map (layer_map forget) head
       = map (layer_map forget) (conv_1x1_bn ic1 (last_channel model))
    /\ map (layer_map forget) (classifier model)
       = map (layer_map forget)
             [Dropout f_0_2; nn_Linear (last_channel model) n_class].
Proof.
  intros H. apply SEMobileNetV2_init_ok in H.
  destruct H as (ic0 & slc & fs & ic1 & _ & Hic0 & _ & Hloop & Hinit).
  apply append_stages_built in Hloop. destruct Hloop as (stages0 & -> & HF).
  unfold _initialize_weights in Hinit.
  step_bind Hinit; [|discriminate]. step_bind Hinit; [|discriminate].
  injection Hinit as <-. cbn [features classifier last_channel] in *.
  apply init_features_arch in E. apply init_seq_arch in E0.
  rewrite <- app_assoc in E. cbn [app] in E.
  inversion E as [|x x' l l' Hx Hrest]; subst.
  destruct x' as [stem|?]; cbn [feature_map] in Hx; [|discriminate].
  injection Hx as Hstem.
  apply arch_body in Hrest. destruct Hrest as (bs' & head & -> & HB & Hhead).
  apply Forall2_concat in HB. destruct HB as (stages & -> & HFF).
  exists ic0, ic1, stem, stages, head.
  repeat split; try assumption.
  clear - HF HFF. revert stages HFF.
  induction HF as [|st bs sts bss Hs _ IH]; intros stages HFF;
    inversion HFF; subst; constructor.
  - eapply stage_built_arch; eassumption.
  - now apply IH.
Qed.

Lemma blocks_built (w : float) (settings : list (Z * Z * Z * Z))
  (stages : list (list (InvertedResidual init))) :
  Forall2 (stage_built w) settings stages ->
  forall b, In b (List.concat stages) ->
            exists ic oc st t, block_built ic oc st t b.
Proof.
  induction 1 as [|[[[t c] n] s] bs sts bss Hs _ IH]; cbn [List.concat];
    intros b Hb; [destruct Hb|].
  apply in_app_or in Hb. destruct Hb as [Hb|Hb]; [|now apply IH].
  destruct Hs as (oc & _ & _ & Hall).
  apply In_nth_error in Hb. destruct Hb as [i Hi].
  destruct (Hall i b Hi) as (ic & Hbuilt & _). eauto.
Qed.

(** Every element of the feature list is what a constructor builds. *)
Lemma features_built (n_class input_size : Z) (w : float) (lc : Z)
  (model : SEMobileNetV2 init) :
  SEMobileNetV2_init n_class input_size w lc = Ok model ->
  Forall feature_built (features model).
Proof.
  intros H. apply network_stages in H.
  destruct H as (ic0 & ic1 & stem & stages & head & _ & -> & Hstem & HF
                 & Hhead & _).
  constructor; [exists 3, ic0; left; exact Hstem|]. apply Forall_app. split.
  - apply Forall_forall. intros x Hx. apply in_map_iff in Hx.
    destruct Hx as (b & <- & Hb). cbn [feature_built].
    eapply blocks_built; eassumption.
  - constructor; [|constructor].
    exists ic1, (last_channel model). right. exact Hhead.
Qed.

Lemma links_last_two {P : Type} (xs : list (feature P)) (x y : feature P)
  (a c : Z) :
  links a (xs ++ [x; y]) c ->
  exists m, feature_out x = Some m /\ feature_in y = Some m.
Proof.
  revert a. induction xs as [|x0 xs IH]; cbn [app links]; intros a.
  - intros (_ & m & Hx & Hy & _). eauto.
  - intros (_ & m & _ & H). eauto.
Qed.

(** The head takes what the last stage produces: [int(320 * width_mult)]
    channels. *)
Lemma head_input (n_class input_size : Z) (w : float) (lc : Z)
  (model : SEMobileNetV2 init) (ic1 : Z)
  (stem head : Sequential init) (stages : list (list (InvertedResidual init))) :
  SEMobileNetV2_init n_class input_size w lc = Ok model ->
  features model
  = Stack stem :: map (@Block init) (List.concat stages) ++ [Stack head] ->
  Forall2 (stage_built w) interverted_residual_setting stages ->
  map (layer_map forget) head
  = map (layer_map forget) (conv_1x1_bn ic1 (last_channel model)) ->
  scaled 320 w = Ok ic1.
Proof.
  intros Hinit Hf HF Hhead.
  apply features_of_network in Hinit.
  destruct Hinit as (_ & _ & _ & _ & _ & Hl).
  change interverted_residual_setting
    with ([(1, 16, 1, 1); (6, 24, 2, 2); (6, 32, 3, 2); (6, 64, 4, 2);
           (6, 96, 3, 1); (6, 160, 3, 2)] ++ [(6, 320, 1, 1)]) in HF.
  apply Forall2_app_inv_l in HF.
  destruct HF as (front & last & _ & Hlast & ->).
  inversion Hlast as [|st bs sts bss Hs Hnil]; subst. inversion Hnil; subst.
  destruct Hs as (oc & Hoc & Hlen & Hb).
  destruct bs as [|b [|? ?]]; try discriminate Hlen.
  destruct (Hb O b eq_refl) as (ic & Hbuilt & _).
  apply block_built_facts in Hbuilt.
  destruct Hbuilt as (_ & _ & _ & _ & Hout & _).
  rewrite Hf in Hl. rewrite concat_app in Hl. cbn [List.concat app] in Hl.
  rewrite map_app in Hl. cbn [map] in Hl. rewrite <- app_assoc in Hl.
  cbn [app] in Hl.
  change (Stack stem :: map (@Block init) (List.concat front)
            ++ [Block b; Stack head])
    with ((Stack stem :: map (@Block init) (List.concat front))
            ++ [Block b; Stack head]) in Hl.
  apply links_last_two in Hl. destruct Hl as (m & Hm1 & Hm2).
  cbn [feature_out feature_in] in Hm1, Hm2.
  rewrite <- (first_conv_in_map forget head), Hhead, first_conv_in_map in Hm2.
  cbn in Hm2. congruence.
Qed.

(** X2.  The architecture of a constructed network is fixed by [n_class],
    [width_mult] and [last_channel]: the stem is
    [conv_bn(3, int(32 * width_mult), 2)], the body holds, stage by stage of
    the schedule, the blocks [InvertedResidual] builds ([int(c * width_mult)]
    output channels, ratio [t], the first with stride [s], the later ones
    with stride 1 and as many input as output channels), the head is
    [conv_1x1_bn(int(320 * width_mult), last_channel)] and the classifier is
    [Dropout(0.2)] and [Linear(last_channel, n_class)]. *)
Theorem network_architecture (n_class input_size : Z) (width_mult : float)
  (lc : Z) (model : SEMobileNetV2 init) :
  SEMobileNetV2_init n_class input_size width_mult lc = Ok model ->
  exists ic0 ic1 stages,
    scaled 32 width_mult = Ok ic0
    /\ scaled 320 width_mult = Ok ic1
    /\ Forall2 (stage_built width_mult) interverted_residual_setting stages
    /\ SEMobileNetV2_map forget model
       = SEMobileNetV2_map forget
           {| last_channel := last_channel model;
              features :=
                Stack (conv_bn 3 ic0 2)
                :: map (@Block init) (List.concat stages)
                   ++ [Stack (conv_1x1_bn ic1 (last_channel model))];
              classifier :=
                [Dropout f_0_2; nn_Linear (last_channel model) n_class] |}.
Proof.
  intros H. pose proof (network_stages _ _ _ _ H)
    as (ic0 & ic1 & stem & stages & head & Hic0 & Hf & Hstem & HF & Hhead & Hcl).
  exists ic0, ic1, stages. split; [exact Hic0|].
  split; [exact (head_input _ _ _ _ H Hf HF Hhead)|].
  split; [exact HF|].
  unfold SEMobileNetV2_map. cbn [last_channel features classifier].
  rewrite Hf, Hcl. cbn [map feature_map]. rewrite !map_app. cbn [map feature_map].
  now rewrite Hstem, Hhead.
Qed.

Lemma network_architecture_witness :
  exists ic0 ic1 stages,
    scaled 32 Samples.f_0_5 = Ok ic0
    /\ scaled 320 Samples.f_0_5 = Ok ic1
    /\ Forall2 (stage_built Samples.f_0_5) interverted_residual_setting stages
    /\ SEMobileNetV2_map forget Samples.narrow
       = SEMobileNetV2_map forget
           {| last_channel := last_channel Samples.narrow;
              features :=
                Stack (conv_bn 3 ic0 2)
                :: map (@Block init) (List.concat stages)
                   ++ [Stack (conv_1x1_bn ic1 (last_channel Samples.narrow))];
              classifier :=
                [Dropout f_0_2;
                 nn_Linear (last_channel Samples.narrow) 1000] |}.
Proof.
  apply (@network_architecture 1000 224 Samples.f_0_5 1280 Samples.narrow).
  vm_compute. reflexivity.
Defined.

(** X3.  In a constructed network every block after the first of its stage
    has the shortcut, and every block has it exactly when its stride is 1
    and its convolution stack takes as many channels as it produces. *)
Theorem shortcuts_of_network (n_class input_size : Z) (width_mult : float)
  (lc : Z) (model : SEMobileNetV2 init) :
  SEMobileNetV2_init n_class input_size width_mult lc = Ok model ->
  exists stem stages head,
    features model
    = Stack stem :: map (@Block init) (List.concat stages) ++ [Stack head]
    /\ Forall2 stage_ok interverted_residual_setting stages
    /\ (forall blocks (i : nat) b,
          In blocks stages -> nth_error blocks i = Some b -> i <> O ->
          use_res_connect b = true)
    /\ (forall b, In b (List.concat stages) ->
          (use_res_connect b = true
           <-> stride b = 1
               /\ first_conv_in (conv b) = last_conv_out (conv b))).
Proof.
  intros H. apply network_stages in H.
  destruct H as (ic0 & ic1 & stem & stages & head & _ & Hf & _ & HF & _).
  exists stem, stages, head. split; [exact Hf|].
  split; [|split].
  - clear - HF. induction HF as [|st bs sts bss Hs _ IH]; [constructor|].
    constructor; [now apply stage_built_ok in Hs | exact IH].
  - intros blocks i b Hin Hi Hne. clear - HF Hin Hi Hne.
    induction HF as [|[[[t c] n] s] bs sts bss Hs _ IH]; [destruct Hin|].
    destruct Hin as [->|Hin]; [|now apply IH].
    destruct Hs as (oc & _ & _ & Hb).
    destruct (Hb i b Hi) as (ic & Hbuilt & Hic).
    apply block_built_facts in Hbuilt.
    destruct Hbuilt as (_ & _ & Hres & _).
    rewrite Hres, (Hic Hne). destruct i; [contradiction|].
    cbn [Nat.eqb]. now rewrite !Z.eqb_refl.
  - intros b Hb. destruct (blocks_built HF b Hb) as (ic & oc & st & t & Hbuilt).
    apply block_built_facts in Hbuilt.
    destruct Hbuilt as (_ & Hst & Hres & Hin & Hout & _).
    rewrite Hres, Hst, Hin, Hout, andb_true_iff, !Z.eqb_eq.
    split; [intros [-> ->]; auto | intros [-> [= ->]]; auto].
Qed.

Lemma shortcuts_of_network_witness :
  exists stem stages head,
    features Samples.network
    = Stack stem :: map (@Block init) (List.concat stages) ++ [Stack head]
    /\ Forall2 stage_ok interverted_residual_setting stages
    /\ (forall blocks (i : nat) b,
          In blocks stages -> nth_error blocks i = Some b -> i <> O ->
          use_res_connect b = true)
    /\ (forall b, In b (List.concat stages) ->
          (use_res_connect b = true
           <-> stride b = 1
               /\ first_conv_in (conv b) = last_conv_out (conv b))).
Proof.
  apply (@shortcuts_of_network 1000 224 f_1_0 1280 Samples.network).
  vm_compute. reflexivity.
Defined.

(** The shortcuts of the default network, block by block: none on the
    first block of a stage, one on every other block. *)
Example default_shortcuts :
  flat_map (fun x => match x with
                     | Block b => [use_res_connect b]
                     | Stack _ => []
                     end)
           (features Samples.network)
  = [false; false; true; false; true; true; false; true; true; true;
     false; true; true; false; true; true; false].
Proof. vm_compute. reflexivity. Qed.

(** ** Convolutions and their normalisation *)

Lemma conv_then_bn_no_bias {P : Type} (s : Sequential P) :
  conv_then_bn s ->
  forall ic oc k st p g w b, In (Conv2d ic oc k st p g w b) s -> b = None.
Proof.
  induction s as [|x|x y l IH1 IH2] using list_ind2;
    intros H ic oc k st p g w b Hin.
  - destruct Hin.
  - destruct x; cbn in H; try contradiction;
      destruct Hin as [Hin|[]]; discriminate.
  - destruct x;
      try (destruct Hin as [Hin|Hin]; [discriminate|];
           eapply IH2; [exact H | exact Hin]);
      try (cbn in H; contradiction).
    destruct y; try (cbn in H; contradiction).
    cbn [conv_then_bn] in H. destruct H as (-> & _ & Hrest).
    destruct Hin as [Hin|[Hin|Hin]]; [congruence | discriminate | eauto].
Qed.

Lemma in_forget {P : Type} (m : layer P) (ms : list (layer P))
  (ms0 : list (layer unit)) :
  map (layer_map forget) ms = ms0 -> In m ms -> In (layer_map forget m) ms0.
Proof. intros <- H. now apply in_map. Qed.

Lemma stack_of_feature (x : feature init) :
  feature_built x ->
  conv_then_bn (match x with Stack s => s | Block b => conv b end)
  /\ forall ic oc k st p g w b,
       In (Conv2d ic oc k st p g w b) (feature_modules x) -> b = None.
Proof.
  destruct x as [s|blk]; cbn [feature_built feature_modules].
  - intros (inp & oup & Hs).
    assert (H : conv_then_bn s).
    { apply (conv_then_bn_map forget).
      destruct Hs as [-> | ->]; cbn; auto. }
    split; [exact H | now apply conv_then_bn_no_bias].
  - intros (ic0 & oc0 & st0 & t0 & Hbuilt).
    apply block_built_facts in Hbuilt.
    destruct Hbuilt as (_ & _ & _ & _ & _ & Hconv & _ & m0 & Hm0 & Hse).
    split; [exact Hconv|].
    intros ic oc k st p g w b Hin.
    unfold InvertedResidual_modules in Hin. apply in_app_or in Hin.
    destruct Hin as [Hin|Hin]; [eapply conv_then_bn_no_bias; eassumption|].
    exfalso. rewrite SEMobile_init_4 in Hm0. injection Hm0 as <-.
    assert (Hms : map (layer_map forget) (SEMobile_modules (se blk))
                  = [AdaptiveAvgPool2d 1; Linear oc0 (oc0 / 4) tt tt;
                     ReLU6 true; Linear (oc0 / 4) oc0 tt tt; Sigmoid]).
    { unfold SEMobile_modules. cbn [map].
      change (layer_map forget (avg_pool (se blk)))
        with (avg_pool (SEMobile_map forget (se blk))).
      change (map (layer_map forget) (fc (se blk)))
        with (fc (SEMobile_map forget (se blk))).
      now rewrite Hse. }
    apply (in_forget _ _ Hms) in Hin. cbn in Hin.
    intuition discriminate.
Qed.

(** X4.  In a constructed network, in the stem, in the head and in the
    convolution stack of every block, every convolution is followed at once
    by a batch normalisation over its output channels; and no convolution of
    the network has a bias. *)
Theorem convolutions_normalised (n_class input_size : Z) (width_mult : float)
  (lc : Z) (model : SEMobileNetV2 init) :
  SEMobileNetV2_init n_class input_size width_mult lc = Ok model ->
  (forall x, In x (features model) ->
             conv_then_bn (match x with Stack s => s | Block b => conv b end))
  /\ (forall ic oc k st p g w b,
        In (Conv2d ic oc k st p g w b) (modules model) -> b = None).
Proof.
  intros H. pose proof (features_built _ _ _ _ H) as HF.
  pose proof (network_stages _ _ _ _ H)
    as (_ & _ & _ & _ & _ & _ & _ & _ & _ & _ & Hcl).
  rewrite Forall_forall in HF. split.
  - intros x Hx. now apply stack_of_feature, HF.
  - intros ic oc k st p g w b Hin. unfold modules in Hin.
    apply in_app_or in Hin. destruct Hin as [Hin|Hin].
    + apply in_flat_map in Hin. destruct Hin as (x & Hx & Hin).
      eapply (proj2 (stack_of_feature x (HF x Hx))); exact Hin.
    + exfalso. apply (in_forget _ _ Hcl) in Hin. cbn in Hin.
      intuition discriminate.
Qed.

Lemma convolutions_normalised_witness :
  (forall x, In x (features Samples.wide) ->
             conv_then_bn (match x with Stack s => s | Block b => conv b end))
  /\ (forall ic oc k st p g w b,
        In (Conv2d ic oc k st p g w b) (modules Samples.wide) -> b = None).
Proof.
  apply (@convolutions_normalised 1000 224 Samples.f_1_5 1280 Samples.wide).
  vm_compute. reflexivity.
Defined.

(** ** Downsampling *)

Lemma unit_strides (bs : list (InvertedResidual init)) :
  (forall i b, nth_error bs i = Some b ->
               stride_product (InvertedResidual_modules b) = 1) ->
  stride_product (flat_map feature_modules (map (@Block init) bs)) = 1.
Proof.
  induction bs as [|b bs IH]; intros H; [reflexivity|].
  cbn [map flat_map feature_modules]. rewrite stride_product_app.
  rewrite (H O b eq_refl), IH; [reflexivity|].
  intros i b' Hi. exact (H (S i) b' Hi).
Qed.

Lemma stage_product (w : float) (setting : Z * Z * Z * Z)
  (bs : list (InvertedResidual init)) :
  stage_built w setting bs ->
  stride_product (flat_map feature_modules (map (@Block init) bs))
  = stage_stride setting.
Proof.
  destruct setting as [[[t c] n] s]. cbn [stage_built stage_stride].
  intros (oc & _ & Hlen & Hb). rewrite <- Hlen.
  destruct bs as [|b bs]; [reflexivity|].
  cbn [List.length Nat.eqb map flat_map feature_modules].
  rewrite stride_product_app.
  destruct (Hb O b eq_refl) as (ic & Hbuilt & _).
  apply block_built_facts in Hbuilt.
  destruct Hbuilt as (_ & _ & _ & _ & _ & _ & Hprod & _).
  rewrite Hprod. cbn [Nat.eqb]. rewrite unit_strides; [lia|].
  intros i b' Hi. destruct (Hb (S i) b' Hi) as (ic' & Hbuilt' & _).
  apply block_built_facts in Hbuilt'.
  now destruct Hbuilt' as (_ & _ & _ & _ & _ & _ & Hprod' & _).
Qed.

Lemma stages_product (w : float) (settings : list (Z * Z * Z * Z))
  (stages : list (list (InvertedResidual init))) :
  Forall2 (stage_built w) settings stages ->
  stride_product
    (flat_map feature_modules (map (@Block init) (List.concat stages)))
  = fold_right (fun setting acc => stage_stride setting * acc) 1 settings.
Proof.
  induction 1 as [|st bs sts bss Hs _ IH]; [reflexivity|].
  cbn [List.concat fold_right].
  rewrite map_app, flat_map_app, stride_product_app, IH.
  now rewrite (@stage_product _ _ _ Hs).
Qed.

(** X5.  The strides of the convolutions of a constructed network multiply
    to 32, the number [input_size] has to be a multiple of: 2 for the stem
    times 16 for the stages of the schedule, whatever the arguments. *)
Theorem network_stride (n_class input_size : Z) (width_mult : float)
  (lc : Z) (model : SEMobileNetV2 init) :
  SEMobileNetV2_init n_class input_size width_mult lc = Ok model ->
  stride_product (modules model) = 32
  /\ input_size mod stride_product (modules model) = 0.
Proof.
  intros H.
  assert (Hsz : input_size mod 32 = 0).
  { apply SEMobileNetV2_init_ok in H.
    now destruct H as (_ & _ & _ & _ & Hsz & _). }
  apply network_stages in H.
  destruct H as (ic0 & ic1 & stem & stages & head & _ & Hf & Hstem & HF
                 & Hhead & Hcl).
  assert (Hp : stride_product (modules model) = 32).
  { unfold modules. rewrite Hf. cbn [flat_map feature_modules].
    rewrite flat_map_app. cbn [flat_map feature_modules].
    rewrite !stride_product_app.
    rewrite (@stages_product _ _ _ HF).
    rewrite <- (stride_product_map forget stem), Hstem, stride_product_map.
    rewrite <- (stride_product_map forget head), Hhead, stride_product_map.
    rewrite <- (stride_product_map forget (classifier model)), Hcl.
    reflexivity. }
  split; [exact Hp | now rewrite Hp].
Qed.

Lemma network_stride_witness :
  stride_product (modules Samples.narrow) = 32
  /\ 224 mod stride_product (modules Samples.narrow) = 0.
Proof.
  apply (@network_stride 1000 224 Samples.f_0_5 1280 Samples.narrow).
  vm_compute. reflexivity.
Defined.

(** ** Gates *)

(** X6.  In a constructed network the gate of every block is the one
    [SEMobile(oup, reduction=4)] builds for the number [oup] of channels the
    convolution stack of the block produces: the gate is applied to a feature
    map of the channel count it was built for. *)
Theorem gates_fit_blocks (n_class input_size : Z) (width_mult : float)
  (lc : Z) (model : SEMobileNetV2 init) :
  SEMobileNetV2_init n_class input_size width_mult lc = Ok model ->
  forall b, In (Block b) (features model) ->
    exists oup m0,
      last_conv_out (conv b) = Some oup
      /\ SEMobile_init oup 4 = Ok m0
      /\ SEMobile_map forget (se b) = SEMobile_map forget m0.
Proof.
  intros H b Hb. apply features_built in H.
  rewrite Forall_forall in H. specialize (H _ Hb). cbn [feature_built] in H.
  destruct H as (ic & oc & st & t & Hbuilt).
  apply block_built_facts in Hbuilt.
  destruct Hbuilt as (_ & _ & _ & _ & Hout & _ & _ & m0 & Hm0 & Hse).
  exists oc, m0. auto.
Qed.

Lemma gates_fit_blocks_witness :
  forallb (fun x => match x with
                    | Block b =>
                        match last_conv_out (conv b), fc (se b) with
                        | Some oup, Linear i h _ _ :: _ =>
                            (i =? oup) && (h =? oup / 4)
                        | _, _ => false
                        end
                    | Stack _ => true
                    end)
          (features Samples.network) = true
  /\ forall b, In (Block b) (features Samples.network) ->
       exists oup m0,
         last_conv_out (conv b) = Some oup
         /\ SEMobile_init oup 4 = Ok m0
         /\ SEMobile_map forget (se b) = SEMobile_map forget m0.
Proof.
  split; [vm_compute; reflexivity|].
  apply (@gates_fit_blocks 1000 224 f_1_0 1280 Samples.network).
  vm_compute. reflexivity.
Defined.

End ArchInvariants.

(* ================================================================== *)
(** * The loader: what a call returns and how it fails *)
(* ================================================================== *)
Module LoaderInvariants.
Import Py Py.Notations Arch Loader PyFacts ArchFacts LoaderFacts.
Local Open Scope py_scope.
Local Open Scope string_scope.
Local Open Scope list_scope.

(** ** [k.replace('module.', '')] *)

Lemma startswith_length (p s : string) :
  startswith p s = true -> (String.length p <= String.length s)%nat.
Proof.
  revert s. induction p as [|a p IH]; intros s H; cbn [String.length].
  - lia.
  - destruct s as [|b s]; cbn [startswith] in H; [discriminate|].
    apply andb_prop in H. destruct H as [_ H]. apply IH in H.
    cbn [String.length]. lia.
Qed.

Lemma remove_from_length (old : string) (skip : nat) (s : string) :
  (String.length (remove_from old skip s) <= String.length s - skip)%nat.
Proof.
  revert skip. induction s as [|c s IH]; intros skip; cbn [remove_from].
  - cbn. lia.
  - destruct skip as [|k].
    + destruct (startswith old (String c s)).
      * specialize (IH (String.length old - 1)%nat). cbn [String.length]. lia.
      * specialize (IH O). cbn [String.length]. lia.
    + specialize (IH k). cbn [String.length]. lia.
Qed.

Lemma remove_from_shorter (old s : string) :
  old <> EmptyString -> str_in old s = true ->
  (String.length (remove_from old 0 s) + String.length old
   <= String.length s)%nat.
Proof.
  intros Hold. induction s as [|c s IH]; intros H.
  - destruct old; [congruence | discriminate H].
  - cbn [remove_from]. destruct (startswith old (String c s)) eqn:E.
    + apply startswith_length in E. cbn [String.length] in E.
      pose proof (remove_from_length old (String.length old - 1) s).
      cbn [String.length]. lia.
    + cbn [str_in] in H. rewrite E in H. cbn [orb] in H.
      apply IH in H. cbn [String.length]. lia.
Qed.

(** X10.  [k.replace('module.', '')] leaves a key as it is exactly when the
    key does not contain ['module.']; a key that contains it gets shorter by
    at least the seven characters of one occurrence. *)
Theorem only_keys_with_prefix_change (k : string) :
  (str_remove "module." k = k <-> str_in "module." k = false)
  /\ (str_in "module." k = true ->
      (String.length (str_remove "module." k) + 7 <= String.length k)%nat).
Proof.
  assert (Hlen : str_in "module." k = true ->
                 (String.length (str_remove "module." k) + 7
                  <= String.length k)%nat).
  { intros H. apply (@remove_from_shorter "module." k); [discriminate|exact H]. }
  split; [split|exact Hlen].
  - intros Heq. destruct (str_in "module." k) eqn:E; [|reflexivity].
    specialize (Hlen eq_refl). rewrite Heq in Hlen. lia.
  - intros H. now apply (remove_from_absent "module." k).
Qed.

Lemma only_keys_with_prefix_change_witness :
  (String.length
     (str_remove "module." "module.features.module.0.weight") + 7
   <= String.length "module.features.module.0.weight")%nat.
Proof.
  apply (proj2 (only_keys_with_prefix_change
                  "module.features.module.0.weight")).
  reflexivity.
Defined.

(** ** The rebuilt mapping *)
Section Mapping.
Context {V : Type}.
Implicit Types (d checkpoint : dict V).

Lemma dict_get_set d (k k' : string) (v : V) :
  dict_get (dict_set d k v) k'
  = if String.eqb k' k then Some v else dict_get d k'.
Proof.
  induction d as [|[k1 v1] d IH]; cbn [dict_set dict_get]; [reflexivity|].
  destruct (String.eqb k k1) eqn:E; cbn [dict_get].
  - apply String.eqb_eq in E. subst k1. now destruct (String.eqb k' k).
  - rewrite IH. destruct (String.eqb k' k1) eqn:E1; [|reflexivity].
    apply String.eqb_eq in E1. subst k1.
    destruct (String.eqb k' k) eqn:E2; [|reflexivity].
    apply String.eqb_eq in E2. subst k'. rewrite String.eqb_refl in E.
    discriminate.
Qed.

Lemma dict_get_app d1 d2 (k : string) :
  dict_get (d1 ++ d2) k
  = match dict_get d1 k with Some v => Some v | None => dict_get d2 k end.
Proof.
  induction d1 as [|[k1 v1] d1 IH]; cbn [app dict_get]; [reflexivity|].
  now destruct (String.eqb k k1).
Qed.

Lemma NoDup_dict_set d (k : string) (v : V) :
  NoDup (keys d) -> NoDup (keys (dict_set d k v)).
Proof.
  induction d as [|[k1 v1] d IH]; cbn [dict_set]; intros H.
  - cbn. constructor; [intros [] | constructor].
  - destruct (String.eqb k k1) eqn:E; [exact H|].
    cbn [keys map fst] in *. inversion H as [|x l Hn Hd]; subst.
    constructor; [|now apply IH].
    change (map fst (dict_set d k v)) with (keys (dict_set d k v)).
    rewrite keys_dict_set. intros [Hin | ->]; [now apply Hn|].
    rewrite String.eqb_refl in E. discriminate.
Qed.

Lemma keys_renamed checkpoint :
  keys (renamed checkpoint) = map (str_remove "module.") (keys checkpoint).
Proof. unfold keys, renamed. rewrite !map_map. reflexivity. Qed.

Lemma fold_strip_get (l acc : dict V) (name : string) :
  dict_get (fold_left
              (fun d kv => dict_set d (str_remove "module." (fst kv)) (snd kv))
              l acc) name
  = match dict_get (rev (renamed l)) name with
    | Some v => Some v
    | None => dict_get acc name
    end.
Proof.
  revert acc. induction l as [|[k v] l IH]; intros acc; cbn [fold_left].
  - reflexivity.
  - rewrite IH. unfold renamed. cbn [map rev fst snd].
    rewrite dict_get_app, dict_get_set.
    destruct (dict_get (rev _) name); [reflexivity|].
    cbn [dict_get]. now destruct (String.eqb name _).
Qed.

Lemma fold_strip_NoDup (l acc : dict V) :
  NoDup (keys acc) ->
  NoDup (keys (fold_left
                 (fun d kv => dict_set d (str_remove "module." (fst kv)) (snd kv))
                 l acc)).
Proof.
  revert acc. induction l as [|[k v] l IH]; intros acc H; cbn [fold_left].
  - exact H.
  - apply IH. now apply NoDup_dict_set.
Qed.

Lemma fold_strip_renamed (l acc : dict V) :
  NoDup (keys acc ++ keys (renamed l)) ->
  fold_left (fun d kv => dict_set d (str_remove "module." (fst kv)) (snd kv))
            l acc
  = acc ++ renamed l.
Proof.
  revert acc. induction l as [|[k v] l IH]; intros acc H; cbn [fold_left].
  - cbn. now rewrite app_nil_r.
  - cbn [fst snd]. unfold renamed in *. cbn [map keys fst snd] in *.
    rewrite dict_set_fresh.
    + rewrite IH; [now rewrite <- app_assoc|].
      unfold keys. rewrite map_app, <- app_assoc. exact H.
    + apply NoDup_remove_2 in H. intros Hin. apply H.
      apply in_or_app. now left.
Qed.

(** X9.  The rebuilt mapping has no key twice, whatever the checkpoint; a
    name is looked up in it as in the rewritten entries read from the last
    one back, so that of two keys that the rewriting makes equal the later
    one gives the value; when the rewriting makes no two keys equal the
    result is the checkpoint with every key rewritten, in the same order;
    and it is the checkpoint itself when no key contains ['module.']. *)
Theorem rebuilt_mapping checkpoint :
  NoDup (keys (strip_keys checkpoint))
  /\ (forall name, dict_get (strip_keys checkpoint) name
                   = dict_get (rev (renamed checkpoint)) name)
  /\ (NoDup (map (str_remove "module.") (keys checkpoint)) ->
      strip_keys checkpoint = renamed checkpoint)
  /\ (NoDup (keys checkpoint) ->
      (forall k, In k (keys checkpoint) -> str_in "module." k = false) ->
      strip_keys checkpoint = checkpoint).
Proof.
  assert (H3 : NoDup (map (str_remove "module.") (keys checkpoint)) ->
               strip_keys checkpoint = renamed checkpoint).
  { intros H. unfold strip_keys. rewrite fold_strip_renamed; [reflexivity|].
    cbn [keys map app]. now rewrite keys_renamed. }
  split; [|split; [|split]].
  - unfold strip_keys. apply fold_strip_NoDup. constructor.
  - intros name. unfold strip_keys. rewrite fold_strip_get.
    now destruct (dict_get (rev (renamed checkpoint)) name).
  - exact H3.
  - intros Hnd Hno.
    assert (Hk : map (str_remove "module.") (keys checkpoint)
                 = keys checkpoint).
    { rewrite <- (map_id (keys checkpoint)) at 2. apply map_ext_in.
      intros k Hk. now apply (remove_from_absent "module." k), Hno. }
    rewrite H3 by now rewrite Hk.
    unfold renamed. rewrite <- (map_id checkpoint) at 2. apply map_ext_in.
    intros [k v] Hin. cbn [fst snd]. f_equal.
    apply (remove_from_absent "module." k), Hno.
    unfold keys. change k with (fst (k, v)). now apply in_map.
Qed.
End Mapping.

(** On [Samples.colliding] the first and the last key become equal: the
    entry keeps the place of the first and has the value of the last. *)
Lemma rebuilt_mapping_witness :
  strip_keys Samples.colliding
  = [ ("classifier.1.bias", 3%nat); ("features.0.0.weight", 2%nat) ]
  /\ strip_keys Samples.wrapped = renamed Samples.wrapped
  /\ strip_keys Samples.unwrapped = Samples.unwrapped.
Proof.
  split; [reflexivity|]. split.
  - apply (proj1 (proj2 (proj2 (rebuilt_mapping Samples.wrapped)))).
    cbn. repeat constructor; cbn; intuition discriminate.
  - apply (proj2 (proj2 (proj2 (rebuilt_mapping Samples.unwrapped)))).
    + cbn. repeat constructor; cbn; intuition discriminate.
    + cbn. intros k [<-|[<-|[]]]; reflexivity.
Defined.

(** ** [se_mobilenet_v2] *)
Section WithLibrary.
Variable V : Type.
Variable shape : V -> list nat.
Variable state_dict : SEMobileNetV2 init -> dict V.
Variable load_state_dict_from_url : string -> result (dict (dict V)).
Variable torch_load : string -> result (dict (dict V)).
Variable models_dir : string.


End WithLibrary.


End LoaderInvariants.

(* ================================================================== *)
(** * The forward pass of the network *)
(* ================================================================== *)
Module ForwardInvariants.
Import Py Py.Notations Arch Forward PyFacts ArchFacts ForwardFacts.
Import ArchInvariants.
Local Open Scope py_scope.




Section Network.
Variable torch_call4 : layer param -> Tensor4 -> result Tensor4.
Variable torch_call2 : layer param -> Tensor2 -> result Tensor2.

End Network.


End ForwardInvariants.
